(** * Coastguard dashboard: track segmentation and polling

    A shallow embedding of the two track components of the dashboard,
    [TrackLayer] (the live vessel tracker) and [Tracks] (the history
    browser), and of the segmentation loop both of them run on every
    tracking response.

    JavaScript numbers that hold unix timestamps are integers ([Z]);
    coordinates, course and speed are only ever copied, never computed
    with, and are carried as rationals.  A JavaScript exception is an
    explicit [Throw] result. *)

From Stdlib Require Import String QArith ZArith List Lia Bool.
From Stdlib Require Import Sorted Permutation Qround.
Import ListNotations.
Open Scope Z_scope.

(** ** Results of code that may throw *)

Inductive jsError : Type :=
| TypeError.

Inductive result (A : Type) : Type :=
| Ok (a : A)
| Throw (e : jsError).

Arguments Ok {A} a.
Arguments Throw {A} e.

Definition bind {A B : Type} (r : result A) (k : A -> result B) : result B :=
  match r with
  | Ok a => k a
  | Throw e => Throw e
  end.

Notation "x <- r ;; k" := (bind r (fun x => k))
  (at level 61, r at next level, right associativity).

(** [xs.forEach(f)] for a callback that updates the enclosing variables
    [S] and may throw: the first exception ends the iteration. *)
Fixpoint forEach {S T : Type} (f : S -> T -> result S) (xs : list T) (s : S)
  : result S :=
  match xs with
  | [] => Ok s
  | x :: xs' => s' <- f s x ;; forEach f xs' s'
  end.

(** ** Data model *)

(** One element of [vessel.track]: [{ dt, lat, lon, cog, sog }]. *)
Record Position : Type := mkPosition {
  dt  : Z;
  lat : Q;
  lon : Q;
  cog : Q;
  sog : Q
}.

(** The two-element array [[t.lat, t.lon]] pushed to a segment. *)
Definition Point : Type := (Q * Q)%type.

Definition Segment : Type := list Point.

(** ** Sorting: [vessel.track.sort((a, b) => b.dt - a.dt)]

    [Array.prototype.sort] is stable; with this comparator an element
    stays in front of every later element whose [dt] is not larger. *)

Definition compareDt (a b : Position) : Z := dt b - dt a.

Fixpoint insertDesc (x : Position) (l : list Position) : list Position :=
  match l with
  | [] => [x]
  | y :: l' =>
      if compareDt x y <=? 0 then x :: y :: l' else y :: insertDesc x l'
  end.

Definition sortTrack (track : list Position) : list Position :=
  fold_right insertDesc [] track.

(** ** The segmentation loop *)

(** The three variables the [forEach] callback closes over. *)
Record SegVars : Type := mkSegVars {
  lines     : list Segment;
  segment   : option Segment;      (* [None] is [null] *)
  segmentDt : Z
}.

(** [let lines = []; let segment = null; let segmentDt = 0;] *)
Definition initVars : SegVars :=
  {| lines := []; segment := None; segmentDt := 0 |}.

(** [segment != null && segment.length > 1] *)
Definition keepable (seg : option Segment) : bool :=
  match seg with
  | None => false
  | Some s => (1 <? length s)%nat
  end.

(** [if (segment != null && segment.length > 1) lines.push(segment)] *)
Definition pushIfKeepable (ls : list Segment) (seg : option Segment)
  : list Segment :=
  match seg with
  | Some s => if keepable seg then ls ++ [s] else ls
  | None => ls
  end.

(** The body of [vessel.track.forEach(t => ...)].  [segment.push(p)] on a
    [null] segment is a [TypeError]. *)
Definition segmentStep (segmentMax : Z) (v : SegVars) (t : Position)
  : result SegVars :=
  let interval := Z.abs (dt t - segmentDt v) in
  let v1 :=
    if interval >? segmentMax
    then {| lines := pushIfKeepable (lines v) (segment v);
            segment := Some [];
            segmentDt := segmentDt v |}
    else v in
  let p : Point := (lat t, lon t) in
  match segment v1 with
  | None => Throw TypeError
  | Some s =>
      Ok {| lines := lines v1; segment := Some (s ++ [p]); segmentDt := dt t |}
  end.

(** The loop followed by the clean-up after it; the value is what is
    stored in [vessel.lines]. *)
Definition segmentTrack (segmentMax : Z) (track : list Position)
  : result (list Segment) :=
  v <- forEach (segmentStep segmentMax) track initVars ;;
  Ok (pushIfKeepable (lines v) (segment v)).

(** Sort, then segment: what the response handler does to one track. *)
Definition sortAndSegment (segmentMax : Z) (track : list Position)
  : result (list Segment) :=
  segmentTrack segmentMax (sortTrack track).

(** ** Runs of a position sequence, after the specification

    A run is a maximal stretch of consecutive positions in which
    neighbours are at most [threshold] seconds apart. *)

Definition closeBy (threshold : Z) (a b : Position) : bool :=
  Z.abs (dt a - dt b) <=? threshold.

Definition consRun (threshold : Z) (t : Position) (rs : list (list Position))
  : list (list Position) :=
  match rs with
  | (u :: r) :: rs' =>
      if closeBy threshold t u then (t :: u :: r) :: rs' else [t] :: rs
  | _ => [t] :: rs
  end.

Definition runs (threshold : Z) (track : list Position)
  : list (list Position) :=
  fold_right (consRun threshold) [] track.

Definition pointOf (t : Position) : Point := (lat t, lon t).

Definition longRun {A : Type} (r : list A) : bool := (1 <? length r)%nat.

(** The input with its single-point runs removed, one list per run. *)
Definition keptRuns (threshold : Z) (track : list Position)
  : list (list Position) :=
  filter longRun (runs threshold track).

(** ** Vessels and the response handler *)

(** [info: { name, color }] *)
Record Info : Type := mkInfo {
  infoName  : string;
  infoColor : string
}.

(** One element of [response.data.tracks], as received. *)
Record VesselData : Type := mkVesselData {
  mmsi  : Z;
  name  : string;
  info  : Info;
  track : list Position
}.

(** The same object after the handler has sorted [track] in place and
    added [pos] and [lines].  [pos = None] is [undefined]. *)
Record Vessel : Type := mkVessel {
  vessel      : VesselData;
  pos         : option Position;
  vesselLines : list Segment
}.

(** The body of [tracks.forEach((vessel) => ...)]. *)
Definition processVessel (segmentMax : Z) (v : VesselData) : result Vessel :=
  let sorted := sortTrack (track v) in
  let v' := {| mmsi := mmsi v; name := name v; info := info v;
               track := sorted |} in
  let head := nth_error sorted 0 in
  ls <- segmentTrack segmentMax sorted ;;
  Ok {| vessel := v'; pos := head; vesselLines := ls |}.

Fixpoint processTracks (segmentMax : Z) (tracks : list VesselData)
  : result (list Vessel) :=
  match tracks with
  | [] => Ok []
  | v :: rest =>
      v' <- processVessel segmentMax v ;;
      rest' <- processTracks segmentMax rest ;;
      Ok (v' :: rest')
  end.

(** ** Rendering *)

Section Render.

(** The colour and icon lookups live outside the two components. *)
Variables Color Icon : Type.
Variable GetColor : string -> Color.
Variable GetIcon : string -> Icon.

Inductive Primitive : Type :=
| Polyline (positions : Segment) (color : Color)
| CircleMarker (center : Position) (color : Color)
| Marker (position : Point) (icon : Icon) (tooltip : string) (time : Z).

(** The inner [<LayerGroup>] of one vessel.  Reading [vessel.pos.lat]
    when [vessel.pos] is [undefined] is a [TypeError]. *)
Definition renderVessel (v : Vessel) : result (list Primitive) :=
  let color := GetColor (infoColor (info (vessel v))) in
  let polylines := map (fun s => Polyline s color) (vesselLines v) in
  let circles := map (fun p => CircleMarker p color) (track (vessel v)) in
  match pos v with
  | None => Throw TypeError
  | Some p =>
      Ok (polylines ++ circles ++
          [Marker (lat p, lon p) (GetIcon (infoColor (info (vessel v))))
                  (infoName (info (vessel v))) (dt p)])
  end.

(** [tracks.map((vessel, index) => ...)] *)
Fixpoint render (tracks : list Vessel) : result (list (list Primitive)) :=
  match tracks with
  | [] => Ok []
  | v :: rest =>
      g <- renderVessel v ;;
      gs <- render rest ;;
      Ok (g :: gs)
  end.

End Render.

Arguments Polyline {Color Icon}.
Arguments CircleMarker {Color Icon}.
Arguments Marker {Color Icon}.

(** ** The browser side: cancel tokens, requests, timers, the log *)

(** A request handed to [axios.get]; [reqMinVal] is the [minVal] its
    handlers close over. *)
Record Request : Type := mkRequest {
  reqId     : nat;
  reqToken  : nat;
  reqMinVal : Z
}.

Record World : Type := mkWorld {
  nextId    : nat;            (* fresh tokens, requests and timer handles *)
  cancelled : list nat;       (* tokens on which [cancel()] was called *)
  inflight  : list Request;   (* requests whose promise has not settled *)
  timers    : list nat;       (* live [setTimeout]/[setInterval] handles *)
  log       : list string     (* first argument of every [Log] call *)
}.

Definition emptyWorld : World :=
  {| nextId := 0; cancelled := []; inflight := []; timers := []; log := [] |}.

(** [axios.CancelToken.source()] *)
Definition newSource (w : World) : nat * World :=
  (nextId w,
   {| nextId := S (nextId w); cancelled := cancelled w;
      inflight := inflight w; timers := timers w; log := log w |}).

(** [source.cancel()] *)
Definition cancel (tok : nat) (w : World) : World :=
  {| nextId := nextId w; cancelled := tok :: cancelled w;
     inflight := inflight w; timers := timers w; log := log w |}.

(** [axios.get(url, { cancelToken })] *)
Definition get (tok : nat) (minVal : Z) (w : World) : World :=
  {| nextId := S (nextId w); cancelled := cancelled w;
     inflight := inflight w ++
                 [{| reqId := nextId w; reqToken := tok;
                     reqMinVal := minVal |}];
     timers := timers w; log := log w |}.

(** [setTimeout] and [setInterval] *)
Definition setTimer (w : World) : nat * World :=
  (nextId w,
   {| nextId := S (nextId w); cancelled := cancelled w;
      inflight := inflight w; timers := nextId w :: timers w;
      log := log w |}).

(** [clearTimeout] and [clearInterval]; a [null] handle clears nothing. *)
Definition clearTimer (h : option nat) (w : World) : World :=
  match h with
  | None => w
  | Some n =>
      {| nextId := nextId w; cancelled := cancelled w;
         inflight := inflight w;
         timers := filter (fun m => negb (Nat.eqb m n)) (timers w);
         log := log w |}
  end.

Definition Log (tag : string) (w : World) : World :=
  {| nextId := nextId w; cancelled := cancelled w; inflight := inflight w;
     timers := timers w; log := log w ++ [tag] |}.

(** The promise of a request settles and leaves [inflight]. *)
Definition settled (r : Request) (w : World) : World :=
  {| nextId := nextId w; cancelled := cancelled w;
     inflight := filter (fun q => negb (Nat.eqb (reqId q) (reqId r)))
                        (inflight w);
     timers := timers w; log := log w |}.

Definition isCancelled (w : World) (r : Request) : bool :=
  existsb (Nat.eqb (reqToken r)) (cancelled w).

(** The requests that can still deliver a response. *)
Definition outstanding (w : World) : list Request :=
  filter (fun r => negb (isCancelled w r)) (inflight w).

(** How the promise of a request settles. *)
Inductive Outcome : Type :=
| Response (tracks : list VesselData)
| NetworkError.

Definition findRequest (id : nat) (w : World) : option Request :=
  find (fun q => Nat.eqb (reqId q) id) (inflight w).

(** ** The vessel tracker: [class TrackLayer]

    [this.setState] is modelled as it acts on a mounted instance whose
    next render succeeds: the new tracks are then what is displayed.
    The statements about displayed tracks below are made of a mounted
    tracker and of responses in which every vessel has a position. *)

Module TrackLayer.

(** [settings.maxErrors]: max errors before clearing tracks *)
Definition maxErrors : nat := 5.

(** [const segmentMax = 3 * 1 * 60] *)
Definition segmentMax : Z := 3 * 1 * 60.

Record t : Type := mk {
  isVisible     : bool;          (* [this.props.isVisible] *)
  mounted       : bool;
  requestRef    : nat;
  startupTimer  : option nat;
  refreshTimer  : option nat;
  refreshErrors : nat;
  tracks        : list Vessel;   (* [this.state.tracks] *)
  world         : World
}.

Definition withWorld (st : t) (w : World) : t :=
  {| isVisible := isVisible st; mounted := mounted st;
     requestRef := requestRef st; startupTimer := startupTimer st;
     refreshTimer := refreshTimer st; refreshErrors := refreshErrors st;
     tracks := tracks st; world := w |}.

Definition withRequestRef (st : t) (tok : nat) : t :=
  {| isVisible := isVisible st; mounted := mounted st;
     requestRef := tok; startupTimer := startupTimer st;
     refreshTimer := refreshTimer st; refreshErrors := refreshErrors st;
     tracks := tracks st; world := world st |}.

Definition withTracks (st : t) (ts : list Vessel) : t :=
  {| isVisible := isVisible st; mounted := mounted st;
     requestRef := requestRef st; startupTimer := startupTimer st;
     refreshTimer := refreshTimer st; refreshErrors := refreshErrors st;
     tracks := ts; world := world st |}.

Definition withRefreshErrors (st : t) (n : nat) : t :=
  {| isVisible := isVisible st; mounted := mounted st;
     requestRef := requestRef st; startupTimer := startupTimer st;
     refreshTimer := refreshTimer st; refreshErrors := n;
     tracks := tracks st; world := world st |}.

(** [this.requestRef = axios.CancelToken.source()] *)
Definition freshRequestRef (st : t) : t :=
  let (tok, w) := newSource (world st) in
  withRequestRef (withWorld st w) tok.

Definition constructor (visible : bool) (w : World) : t :=
  let (tok, w') := newSource w in
  {| isVisible := visible; mounted := false; requestRef := tok;
     startupTimer := None; refreshTimer := None; refreshErrors := 0;
     tracks := []; world := w' |}.

Definition refresh (st : t) : t :=
  if negb (isVisible st) then st
  else
    let w := Log "track" (world st) in
    withWorld st (get (requestRef st) 1 w).

Definition componentDidMount (st : t) : t :=
  if mounted st then withWorld st (Log "tracks" (world st))
  else
    let (h, w) := setTimer (world st) in
    {| isVisible := isVisible st; mounted := true;
       requestRef := requestRef st; startupTimer := Some h;
       refreshTimer := refreshTimer st; refreshErrors := refreshErrors st;
       tracks := tracks st; world := w |}.

(** The callback of the soft-start timer; a timeout that has fired is no
    longer live. *)
Definition startupFired (st : t) : t :=
  let st1 := withWorld st (clearTimer (startupTimer st) (world st)) in
  let st2 := refresh (freshRequestRef st1) in
  let (h, w) := setTimer (world st2) in
  {| isVisible := isVisible st2; mounted := mounted st2;
     requestRef := requestRef st2; startupTimer := startupTimer st2;
     refreshTimer := Some h; refreshErrors := refreshErrors st2;
     tracks := tracks st2; world := w |}.

Definition componentWillUnmount (st : t) : t :=
  let w1 := cancel (requestRef st) (world st) in
  let w2 := clearTimer (startupTimer st) w1 in
  let w3 := clearTimer (refreshTimer st) w2 in
  {| isVisible := isVisible st; mounted := false;
     requestRef := requestRef st; startupTimer := startupTimer st;
     refreshTimer := None; refreshErrors := refreshErrors st;
     tracks := tracks st; world := w3 |}.

(** [.then((response) => ...)]: a handler that throws rejects the
    promise it returns, and nothing of the component has changed. *)
Definition onThen (data : list VesselData) (st : t) : result t :=
  ts <- processTracks segmentMax data ;;
  Ok (withRefreshErrors (withTracks st ts) 0).

(** [.catch((err) => ...)] *)
Definition onCatch (st : t) : t :=
  let st1 := withRefreshErrors st (S (refreshErrors st)) in
  let st2 := withWorld st1 (Log "track error" (world st1)) in
  if (maxErrors <=? refreshErrors st2)%nat
  then withTracks (withWorld st2 (Log "track error" (world st2))) []
  else st2.

(** [.finally(() => ...)] *)
Definition onFinally (st : t) : t := freshRequestRef st.

(** The promise chain of request [id] runs.  A request whose token was
    cancelled is rejected whatever the server answered. *)
Definition settle (id : nat) (o : Outcome) (st : t) : t :=
  match findRequest id (world st) with
  | None => st
  | Some r =>
      let st1 := withWorld st (settled r (world st)) in
      let rejected := onFinally (onCatch st1) in
      if isCancelled (world st) r then rejected
      else
        match o with
        | NetworkError => rejected
        | Response data =>
            match onThen data st1 with
            | Ok st2 => onFinally st2
            | Throw _ => rejected
            end
        end
  end.

End TrackLayer.

(** ** The history browser: [function Tracks] *)

Module Tracks.

(** The [mins] prop: ["auto"] or a number of minutes. *)
Inductive Mins : Type :=
| Auto
| Minutes (n : Z).

Record Props : Type := mkProps {
  isVisible : bool;
  timeframe : string;
  mins      : Mins
}.

Record t : Type := mk {
  startupTimer : option nat;
  refreshTimer : option nat;
  requestRef   : nat;
  tracks       : list Vessel;
  world        : World
}.

Definition withWorld (st : t) (w : World) : t :=
  {| startupTimer := startupTimer st; refreshTimer := refreshTimer st;
     requestRef := requestRef st; tracks := tracks st; world := w |}.

Definition withRequestRef (st : t) (tok : nat) : t :=
  {| startupTimer := startupTimer st; refreshTimer := refreshTimer st;
     requestRef := tok; tracks := tracks st; world := world st |}.

Definition withTracks (st : t) (ts : list Vessel) : t :=
  {| startupTimer := startupTimer st; refreshTimer := refreshTimer st;
     requestRef := requestRef st; tracks := ts; world := world st |}.

(** [requestRef.current = axios.CancelToken.source()] *)
Definition freshRequestRef (st : t) : t :=
  let (tok, w) := newSource (world st) in
  withRequestRef (withWorld st w) tok.

(** The hooks of the first render. *)
Definition init (w : World) : t :=
  let (tok, w') := newSource w in
  {| startupTimer := None; refreshTimer := None; requestRef := tok;
     tracks := []; world := w' |}.

(** The [switch (timeframe)] of [refresh], as far as [minVal] goes. *)
Definition timeframeMinVal (timeframe : string) : Z :=
  if String.eqb timeframe "24H" then 1
  else if String.eqb timeframe "7D" then 1
  else if String.eqb timeframe "30D" then 2
  else if String.eqb timeframe "0M" then 2
  else if String.eqb timeframe "1M" then 2
  else if String.eqb timeframe "2M" then 2
  else if String.eqb timeframe "All" then 5
  else 1.

(** [minVal = mins === "auto" ? minVal : mins] *)
Definition minVal (p : Props) : Z :=
  match mins p with
  | Auto => timeframeMinVal (timeframe p)
  | Minutes n => n
  end.

(** [const segmentMax = 3 * minVal * 60] *)
Definition segmentMax (minVal : Z) : Z := 3 * minVal * 60.

(** [refresh] closes over the props of the render that created it. *)
Definition refresh (p : Props) (st : t) : t :=
  if negb (isVisible p) then st
  else
    let w1 := Log "history" (world st) in
    let w2 := cancel (requestRef st) w1 in
    let st1 := freshRequestRef (withWorld st w2) in
    withWorld st1 (get (requestRef st1) (minVal p) (world st1)).

(** The two effects of the first render: arm the soft-start timer, and
    refresh because [org] and [timeframe] are new. *)
Definition mountEffects (p : Props) (st : t) : t :=
  let w1 := clearTimer (startupTimer st) (world st) in
  let (h, w2) := setTimer w1 in
  let st1 :=
    {| startupTimer := Some h; refreshTimer := refreshTimer st;
       requestRef := requestRef st; tracks := tracks st; world := w2 |} in
  refresh p st1.

(** The callback of the soft-start timer; a timeout that has fired is no
    longer live.  The callback calls the [refresh] of the render whose
    effect armed the timer, hence the [p]. *)
Definition startupFired (p : Props) (st : t) : t :=
  let st1 := withWorld st (clearTimer (startupTimer st) (world st)) in
  let st2 := refresh p st1 in
  let w1 := clearTimer (refreshTimer st2) (world st2) in
  let (h, w2) := setTimer w1 in
  {| startupTimer := startupTimer st2; refreshTimer := Some h;
     requestRef := requestRef st2; tracks := tracks st2; world := w2 |}.

(** The clean-up the first effect returns.  The function returned from
    inside the timeout callback goes to [setTimeout], which drops it, so
    nothing else is cleared on teardown. *)
Definition cleanup (st : t) : t :=
  withWorld st (clearTimer (startupTimer st) (world st)).

(** [.then((response) => ...)] of the request [r]. *)
Definition onThen (r : Request) (data : list VesselData) (st : t)
  : result t :=
  ts <- processTracks (segmentMax (reqMinVal r)) data ;;
  Ok (withWorld (withTracks st ts) (Log "history" (world st))).

(** [.catch((err) => ...)] *)
Definition onCatch (st : t) : t :=
  withWorld st (Log "history refresh error" (world st)).

(** [.finally(() => ...)] *)
Definition onFinally (st : t) : t := freshRequestRef st.

Definition settle (id : nat) (o : Outcome) (st : t) : t :=
  match findRequest id (world st) with
  | None => st
  | Some r =>
      let st1 := withWorld st (settled r (world st)) in
      let rejected := onFinally (onCatch st1) in
      if isCancelled (world st) r then rejected
      else
        match o with
        | NetworkError => rejected
        | Response data =>
            match onThen r data st1 with
            | Ok st2 => onFinally st2
            | Throw _ => rejected
            end
        end
  end.

End Tracks.

(** ** The wind chart: [function WindChart] *)

Module WindChart.

(** One element of the weather response for [field=wind]:
    [{ value: { knots, direction }, dt }]. *)
Record WindValue : Type := mkWindValue {
  knots     : Q;
  direction : Q
}.

Record WindRecord : Type := mkWindRecord {
  value : WindValue;
  dt    : Z
}.

Record t : Type := mk {
  data         : list WindRecord;
  speedNow     : Q;
  directionNow : Q;
  refreshTimer : option nat;    (* the [const refreshTimer] of the effect *)
  world        : World
}.

Definition withWorld (st : t) (w : World) : t :=
  {| data := data st; speedNow := speedNow st;
     directionNow := directionNow st; refreshTimer := refreshTimer st;
     world := w |}.

(** The three [useState] hooks of the first render. *)
Definition init (w : World) : t :=
  {| data := []; speedNow := 0%Q; directionNow := 0%Q;
     refreshTimer := None; world := w |}.

(** [axios.get(url)] without a cancel token: the request carries a token
    of its own, which nothing holds and nothing can cancel. *)
Definition refresh (st : t) : t :=
  let w := Log "wind" (world st) in
  let (tok, w1) := newSource w in
  withWorld st (get tok 0 w1).

(** [.then((response) => ...)].  [setData] has been called when
    [data[data.length - 1].value] is read; on an empty array that read is
    a [TypeError], so the handler returns the state it has reached
    together with the exception. *)
Definition onThen (response : list WindRecord) (st : t)
  : t * option jsError :=
  let st1 := {| data := response; speedNow := speedNow st;
                directionNow := directionNow st;
                refreshTimer := refreshTimer st; world := world st |} in
  match nth_error response (length response - 1) with
  | None => (st1, Some TypeError)
  | Some r =>
      let lastRecord := value r in
      ({| data := response; speedNow := knots lastRecord;
          directionNow := direction lastRecord;
          refreshTimer := refreshTimer st;
          world := Log "wind" (world st) |}, None)
  end.

(** [.catch((err) => ...)] *)
Definition onCatch (st : t) : t :=
  withWorld st (Log "wind error" (world st)).

(** The promise chain on a response, and on a failed request. *)
Definition onResponse (response : list WindRecord) (st : t) : t :=
  match onThen response st with
  | (st1, None) => st1
  | (st1, Some _) => onCatch st1
  end.

Definition onFailure (st : t) : t := onCatch st.

(** The effect of the first render: refresh, then arm the interval. *)
Definition mountEffect (st : t) : t :=
  let st1 := refresh st in
  let (h, w) := setTimer (world st1) in
  {| data := data st1; speedNow := speedNow st1;
     directionNow := directionNow st1; refreshTimer := Some h;
     world := w |}.

(** The clean-up the effect returns: [clearInterval(refreshTimer)]. *)
Definition cleanup (st : t) : t :=
  withWorld st (clearTimer (refreshTimer st) (world st)).

End WindChart.

(** ** Chart ticks: [formatTicks] of the wind and pressure charts *)

Module Ticks.

(** [settings.tickSeconds] *)
Definition tickSeconds : Z := 1 * 60 * 60.

(** The [while (dtTick < dtTo)] loop.  [dtTick] is a whole number, [dtTo]
    the quotient of a millisecond count by 1000; the loop runs out of
    [fuel] only if it is given too little. *)
Fixpoint ticksLoop (fuel : nat) (dtTick : Z) (dtTo : Q) (tickArray : list Z)
  : option (list Z) :=
  if Qlt_le_dec (inject_Z dtTick) dtTo then
    match fuel with
    | O => None
    | S fuel' =>
        ticksLoop fuel' (dtTick + tickSeconds) dtTo (tickArray ++ [dtTick])
    end
  else Some tickArray.

(** [formatTicks], from the value [Math.floor(dtFrom / tickSeconds)] and
    from [dtTo]; both are read off the clock by code outside the chart. *)
Definition formatTicks (fuel : nat) (floorFrom : Z) (dtTo : Q)
  : option (list Z) :=
  let dtTick := floorFrom * tickSeconds in
  ticksLoop fuel dtTick dtTo [].

End Ticks.

(** ** Events *)

(** What can happen to a mounted tracker: its life-cycle methods, its two
    timers, a settling request, a change of the [isVisible] prop. *)
Inductive TrackLayerEvent : Type :=
| TLMount
| TLStartup
| TLTick
| TLSettle (id : nat) (o : Outcome)
| TLUnmount
| TLVisible (b : bool).

Definition trackLayerStep (st : TrackLayer.t) (e : TrackLayerEvent)
  : TrackLayer.t :=
  match e with
  | TLMount => TrackLayer.componentDidMount st
  | TLStartup => TrackLayer.startupFired st
  | TLTick => TrackLayer.refresh st
  | TLSettle id o => TrackLayer.settle id o st
  | TLUnmount => TrackLayer.componentWillUnmount st
  | TLVisible b =>
      {| TrackLayer.isVisible := b;
         TrackLayer.mounted := TrackLayer.mounted st;
         TrackLayer.requestRef := TrackLayer.requestRef st;
         TrackLayer.startupTimer := TrackLayer.startupTimer st;
         TrackLayer.refreshTimer := TrackLayer.refreshTimer st;
         TrackLayer.refreshErrors := TrackLayer.refreshErrors st;
         TrackLayer.tracks := TrackLayer.tracks st;
         TrackLayer.world := TrackLayer.world st |}
  end.

Definition trackLayerRun (es : list TrackLayerEvent) (st : TrackLayer.t)
  : TrackLayer.t :=
  fold_left trackLayerStep es st.

(** What can happen to the history browser; every call of [refresh]
    comes with the props its closure holds. *)
Inductive TracksEvent : Type :=
| HMount (p : Tracks.Props)
| HStartup (p : Tracks.Props)
| HRefresh (p : Tracks.Props)
| HSettle (id : nat) (o : Outcome)
| HCleanup.

Definition tracksStep (st : Tracks.t) (e : TracksEvent) : Tracks.t :=
  match e with
  | HMount p => Tracks.mountEffects p st
  | HStartup p => Tracks.startupFired p st
  | HRefresh p => Tracks.refresh p st
  | HSettle id o => Tracks.settle id o st
  | HCleanup => Tracks.cleanup st
  end.

Definition tracksRun (es : list TracksEvent) (st : Tracks.t) : Tracks.t :=
  fold_left tracksStep es st.

(** A run on which the tracker stays mounted and every render succeeds:
    no unmount, and no response with a vessel that has no position. *)
Definition staysMounted (e : TrackLayerEvent) : Prop :=
  match e with
  | TLUnmount => False
  | TLSettle _ (Response data) => forall v, In v data -> track v <> []
  | _ => True
  end.

(** ** The history browser under its parent

    [Tracks] is a function component: every render makes a new [refresh]
    that closes over the props of that render.  The timers are armed by
    an effect with dependencies [[startupMillis, refreshMillis]], so
    their callbacks keep calling the [refresh] of the render that armed
    them, whatever the props have become since. *)

Module TracksHost.

Record t : Type := mk {
  props : Tracks.Props;    (* the props of the latest render *)
  armed : Tracks.Props;    (* the props of the render that armed the timers *)
  hooks : Tracks.t
}.

(** The first render and its two effects. *)
Definition mount (p : Tracks.Props) (w : World) : t :=
  {| props := p; armed := p;
     hooks := Tracks.mountEffects p (Tracks.init w) |}.

(** The soft-start timeout fires. *)
Definition startupFired (h : t) : t :=
  {| props := props h; armed := armed h;
     hooks := Tracks.startupFired (armed h) (hooks h) |}.

(** The refresh interval ticks. *)
Definition tick (h : t) : t :=
  {| props := props h; armed := armed h;
     hooks := Tracks.refresh (armed h) (hooks h) |}.

(** The parent renders the component again with another [isVisible].
    No dependency of either effect has changed, so no effect runs. *)
Definition setVisible (b : bool) (h : t) : t :=
  {| props := {| Tracks.isVisible := b;
                 Tracks.timeframe := Tracks.timeframe (props h);
                 Tracks.mins := Tracks.mins (props h) |};
     armed := armed h; hooks := hooks h |}.

End TracksHost.

(** ** Vocabulary of the statements *)

(** Every stored segment has more than one point. *)
Definition allLong (ls : list Segment) : Prop :=
  Forall (fun s => (1 < length s)%nat) ls.

(** The runs as the loop finds them: [cur ++ [u]] is the run that is
    open, [u] the last point seen. *)
Fixpoint runsFrom (threshold : Z) (cur : list Position) (u : Position)
         (rest : list Position) : list (list Position) :=
  match rest with
  | [] => [cur ++ [u]]
  | t :: rest' =>
      if closeBy threshold u t
      then runsFrom threshold (cur ++ [u]) t rest'
      else (cur ++ [u]) :: runsFrom threshold [] t rest'
  end.

(** Put [cur] in front of the first run. *)
Definition glue (cur : list Position) (rs : list (list Position))
  : list (list Position) :=
  match rs with
  | [] => [cur]
  | r :: rs' => (cur ++ r) :: rs'
  end.

(** [a] may stand in front of [b] in a track sorted newest first. *)
Definition newerFirst (a b : Position) : Prop := dt b <= dt a.

(** At most one request can still deliver a response. *)
Definition atMostOneOutstanding (w : World) : Prop :=
  (length (outstanding w) <= 1)%nat.

(** The promise chain of [r] ends in [.catch]: the token was cancelled,
    the request failed, or the [.then] handler threw. *)
Definition trackLayerRejects (st : TrackLayer.t) (r : Request) (o : Outcome)
  : Prop :=
  isCancelled (TrackLayer.world st) r = true \/
  o = NetworkError \/
  exists data e,
    o = Response data /\
    processTracks TrackLayer.segmentMax data = Throw e.

(** The rejection chain, [.catch] then [.finally]. *)
Definition trackLayerFailure (st : TrackLayer.t) : TrackLayer.t :=
  TrackLayer.onFinally (TrackLayer.onCatch st).

(** Tokens are handed out in increasing order: the held token and every
    cancelled token are older than the next one to come. *)
Definition tokensBelow (st : Tracks.t) : Prop :=
  (Tracks.requestRef st < nextId (Tracks.world st))%nat /\
  Forall (fun c => (c < nextId (Tracks.world st))%nat)
         (cancelled (Tracks.world st)).

(** The [i]-th tick after [d]. *)
Definition tickAt (d : Z) (i : nat) : Z := d + Z.of_nat i * Ticks.tickSeconds.

(** ** Worked examples *)

Definition examplePosition (d : Z) (n : Z) : Position :=
  {| dt := d; lat := inject_Z n; lon := inject_Z (n + 100);
     cog := 0%Q; sog := 0%Q |}.

Definition e100 : Position := examplePosition 100 1.
Definition e190 : Position := examplePosition 190 2.
Definition e5000 : Position := examplePosition 5000 3.

(** A track as it arrives, oldest position first. *)
Definition exampleTrack : list Position := [e100; e190; e5000].

(** A longer track, already newest first, with two long runs and two
    single points. *)
Definition exampleSorted : list Position :=
  [ examplePosition 9000 1; examplePosition 5200 2; examplePosition 5100 3;
    examplePosition 5000 4; examplePosition 3000 5; examplePosition 1100 6;
    examplePosition 1000 7 ].

Definition exampleSegments : list Segment :=
  [ map pointOf [examplePosition 5200 2; examplePosition 5100 3;
                 examplePosition 5000 4];
    map pointOf [examplePosition 1100 6; examplePosition 1000 7] ].

Definition exampleVessel (m : Z) (tr : list Position) : VesselData :=
  {| mmsi := m; name := "vessel";
     info := {| infoName := "vessel"; infoColor := "red" |};
     track := tr |}.

Definition exampleResponse : list VesselData :=
  [ exampleVessel 1 [examplePosition 1700000000 1;
                      examplePosition 1700000060 2];
    exampleVessel 2 [] ].

Definition exampleProcessed : list Vessel :=
  [ {| vessel := exampleVessel 1 [examplePosition 1700000060 2;
                                   examplePosition 1700000000 1];
       pos := Some (examplePosition 1700000060 2);
       vesselLines := [map pointOf [examplePosition 1700000060 2;
                                    examplePosition 1700000000 1]] |};
    {| vessel := exampleVessel 2 []; pos := None; vesselLines := [] |} ].

Definition olderResponse : list VesselData :=
  [ exampleVessel 1 [examplePosition 1700000000 1;
                      examplePosition 1700000060 2] ].

Definition newerResponse : list VesselData :=
  [ exampleVessel 1 [examplePosition 1700000120 3;
                      examplePosition 1700000180 4] ].

(** The tracker once its soft-start timer has fired: visible, one
    request in flight. *)
Definition trackLayerLive : TrackLayer.t :=
  TrackLayer.startupFired
    (TrackLayer.componentDidMount (TrackLayer.constructor true emptyWorld)).

Definition trackLayerRequest : Request :=
  {| reqId := 3; reqToken := 2; reqMinVal := 1 |}.

Definition visibleProps : Tracks.Props :=
  {| Tracks.isVisible := true; Tracks.timeframe := "12H";
     Tracks.mins := Tracks.Auto |}.

(** The history browser with its first poll in flight. *)
Definition historyMounted : Tracks.t :=
  Tracks.mountEffects visibleProps (Tracks.init emptyWorld).

(** The history browser after its first render and its soft start. *)
Definition historyLive : Tracks.t :=
  Tracks.startupFired visibleProps
    (Tracks.mountEffects visibleProps (Tracks.init emptyWorld)).

Definition exampleRun : list Position :=
  [examplePosition 5200 2; examplePosition 5100 3; examplePosition 5000 4].

Definition exampleVesselData : VesselData :=
  exampleVessel 1 [examplePosition 1700000000 1;
                    examplePosition 1700000060 2].

Definition exampleVesselDone : Vessel :=
  {| vessel := exampleVessel 1 [examplePosition 1700000060 2;
                                 examplePosition 1700000000 1];
     pos := Some (examplePosition 1700000060 2);
     vesselLines := [map pointOf [examplePosition 1700000060 2;
                                  examplePosition 1700000000 1]] |}.

(** The tracker of [trackLayerLive] with the page hidden afterwards. *)
Definition trackLayerHidden : TrackLayer.t :=
  {| TrackLayer.isVisible := false;
     TrackLayer.mounted := TrackLayer.mounted trackLayerLive;
     TrackLayer.requestRef := TrackLayer.requestRef trackLayerLive;
     TrackLayer.startupTimer := TrackLayer.startupTimer trackLayerLive;
     TrackLayer.refreshTimer := TrackLayer.refreshTimer trackLayerLive;
     TrackLayer.refreshErrors := 2;
     TrackLayer.tracks := [exampleVesselDone];
     TrackLayer.world := TrackLayer.world trackLayerLive |}.

(** A mounted tracker shows one response, then five polls fail. *)
Definition fivePollsFail : list TrackLayerEvent :=
  [ TLStartup;
    TLSettle 3 (Response olderResponse);
    TLTick; TLSettle 6 NetworkError;
    TLTick; TLSettle 8 NetworkError;
    TLTick; TLSettle 10 NetworkError;
    TLTick; TLSettle 12 NetworkError;
    TLTick; TLSettle 14 NetworkError ].

(** A tracker constructed while some other component's timer is live. *)
Definition trackLayerFresh : TrackLayer.t :=
  TrackLayer.constructor true (snd (setTimer emptyWorld)).

Definition exampleWind (k d : Z) (t : Z) : WindChart.WindRecord :=
  {| WindChart.value := {| WindChart.knots := inject_Z k;
                           WindChart.direction := inject_Z d |};
     WindChart.dt := t |}.

(** A chart that has shown twelve knots from 270 degrees. *)
Definition windShown : WindChart.t :=
  WindChart.onResponse [exampleWind 10 260 1700000000;
                        exampleWind 12 270 1700000060]
                       (WindChart.mountEffect (WindChart.init emptyWorld)).

(** The request the third refresh of the history browser issues. *)
Definition hiddenTickRequest : Request :=
  {| reqId := 8; reqToken := 7; reqMinVal := 1 |}.

(** * Properties *)

(** ** The segmentation loop *)

Section SegmentLoop.

Variable segmentMax : Z.

Let step := segmentStep segmentMax.

(** Once a segment is open the callback cannot throw, and it leaves a
    segment open. *)
Lemma segmentStep_open (v : SegVars) (t : Position) (s : Segment) :
  segment v = Some s ->
  exists v' s', step v t = Ok v' /\ segment v' = Some s'.
Proof.
  intros Hs. unfold step, segmentStep.
  destruct (Z.abs (dt t - segmentDt v) >? segmentMax); cbn [segment lines].
  - do 2 eexists; split; [reflexivity|]. cbn [segment]. reflexivity.
  - rewrite Hs. do 2 eexists; split; [reflexivity|]. cbn [segment]. reflexivity.
Qed.

Lemma forEach_open (ts : list Position) :
  forall (v : SegVars) (s : Segment),
    segment v = Some s ->
    exists v' s', forEach step ts v = Ok v' /\ segment v' = Some s'.
Proof.
  induction ts as [|t ts IH]; intros v s Hs; cbn [forEach].
  - exists v, s. split; [reflexivity | assumption].
  - destruct (segmentStep_open v t s Hs) as (v1 & s1 & E1 & Hs1).
    rewrite E1. cbn [bind]. eapply IH; eassumption.
Qed.

(** What the first iteration does to the initial variables. *)
Lemma segmentStep_init (t : Position) :
  step initVars t =
  if Z.abs (dt t) >? segmentMax
  then Ok {| lines := []; segment := Some [pointOf t]; segmentDt := dt t |}
  else Throw TypeError.
Proof.
  unfold step, segmentStep, initVars; cbn [segmentDt].
  rewrite Z.sub_0_r.
  destruct (Z.abs (dt t) >? segmentMax); reflexivity.
Qed.

(** *** Only segments of two or more points reach [lines] *)

Lemma pushIfKeepable_long (ls : list Segment) (seg : option Segment) :
  allLong ls -> allLong (pushIfKeepable ls seg).
Proof.
  intros H. destruct seg as [s|]; cbn [pushIfKeepable keepable]; auto.
  destruct (1 <? length s)%nat eqn:E; auto.
  apply Forall_app; split; auto.
  constructor; [now apply Nat.ltb_lt | constructor].
Qed.

Lemma segmentStep_long (v v' : SegVars) (t : Position) :
  allLong (lines v) -> step v t = Ok v' -> allLong (lines v').
Proof.
  unfold step, segmentStep. intros H.
  destruct (Z.abs (dt t - segmentDt v) >? segmentMax); cbn [segment lines].
  - intros E; injection E as <-; cbn [lines].
    now apply pushIfKeepable_long.
  - destruct (segment v); intros E; [|discriminate].
    injection E as <-; assumption.
Qed.

Lemma forEach_long (ts : list Position) :
  forall v v', allLong (lines v) -> forEach step ts v = Ok v' ->
               allLong (lines v').
Proof.
  induction ts as [|t ts IH]; intros v v' H; cbn [forEach].
  - intros E; injection E as <-; assumption.
  - destruct (step v t) as [v1|e] eqn:E1; cbn [bind]; [|discriminate].
    apply IH. eapply segmentStep_long; eassumption.
Qed.

End SegmentLoop.

(** ** Runs *)

Section Runs.

Variable threshold : Z.

Lemma closeBy_le (a b : Position) :
  closeBy threshold a b = true <-> Z.abs (dt a - dt b) <= threshold.
Proof. unfold closeBy. apply Z.leb_le. Qed.

Lemma closeBy_gt (a b : Position) :
  closeBy threshold a b = false <-> Z.abs (dt a - dt b) > threshold.
Proof. unfold closeBy. rewrite Z.leb_gt. lia. Qed.

(** The test of the loop is the negation of [closeBy], read from the
    newer point back to the last one seen. *)
Lemma interval_closeBy (u t : Position) :
  (Z.abs (dt t - dt u) >? threshold) = negb (closeBy threshold u t).
Proof.
  unfold closeBy.
  destruct (Z.abs (dt u - dt t) <=? threshold) eqn:E; cbn [negb].
  - apply Z.leb_le in E. rewrite Z.gtb_ltb. apply Z.ltb_ge. lia.
  - apply Z.leb_gt in E. rewrite Z.gtb_ltb. apply Z.ltb_lt. lia.
Qed.

Lemma runs_cons (t : Position) (l : list Position) :
  runs threshold (t :: l) = consRun threshold t (runs threshold l).
Proof. reflexivity. Qed.

(** The first run of a non-empty sequence starts with its first point. *)
Lemma runs_head (t : Position) (l : list Position) :
  exists r rs, runs threshold (t :: l) = (t :: r) :: rs.
Proof.
  rewrite runs_cons. destruct (runs threshold l) as [|[|u r] rs];
    cbn [consRun]; eauto.
  destruct (closeBy threshold t u); eauto.
Qed.

(** The runs are a partition of the input into consecutive pieces. *)
Lemma runs_concat (l : list Position) : concat (runs threshold l) = l.
Proof.
  induction l as [|t l IH]; [reflexivity|].
  rewrite runs_cons. destruct (runs threshold l) as [|[|u r] rs];
    cbn [consRun]; cbn in IH |- *; try congruence.
  destruct (closeBy threshold t u); cbn; congruence.
Qed.

Lemma runs_nonempty (l : list Position) :
  Forall (fun r => r <> []) (runs threshold l).
Proof.
  induction l as [|t l IH]; [constructor|].
  rewrite runs_cons. destruct (runs threshold l) as [|[|u r] rs];
    cbn [consRun].
  - repeat constructor; discriminate.
  - constructor; [discriminate | assumption].
  - destruct (closeBy threshold t u).
    + inversion IH; subst. constructor; [discriminate | assumption].
    + constructor; [discriminate | assumption].
Qed.

(** Neighbours inside one run are at most [threshold] apart. *)
Lemma runs_within (l : list Position) :
  forall G1 G2 p a b q,
    runs threshold l = G1 ++ (p ++ a :: b :: q) :: G2 ->
    Z.abs (dt a - dt b) <= threshold.
Proof.
  induction l as [|t l IH]; intros G1 G2 p a b q E.
  - destruct G1; discriminate.
  - rewrite runs_cons in E.
    destruct (runs threshold l) as [|[|u r] rs] eqn:R; cbn [consRun] in E.
    + destruct G1 as [|g G1]; cbn in E.
      * injection E as E _. destruct p as [|? [|? ?]]; discriminate.
      * injection E as _ E. destruct G1; discriminate.
    + destruct G1 as [|g G1]; cbn in E.
      * injection E as E _. destruct p as [|? [|? ?]]; discriminate.
      * injection E as _ E. eapply (IH G1); exact E.
    + destruct (closeBy threshold t u) eqn:C.
      * destruct G1 as [|g G1]; cbn in E.
        -- injection E as E E'. destruct p as [|x p]; cbn in E.
           ++ injection E as -> -> _. now apply closeBy_le.
           ++ injection E as _ E. subst rs.
              eapply (IH [] G2 p). cbn. rewrite E. reflexivity.
        -- injection E as _ E. subst rs.
           eapply (IH ((u :: r) :: G1)). cbn. reflexivity.
      * destruct G1 as [|g G1]; cbn in E.
        -- injection E as E _. destruct p as [|? [|? ?]]; discriminate.
        -- injection E as _ E. eapply (IH G1); exact E.
Qed.

(** The last point of a run and the first of the next are more than
    [threshold] apart. *)
Lemma runs_across (l : list Position) :
  forall G1 G2 g1 a b g2,
    runs threshold l = G1 ++ (g1 ++ [a]) :: (b :: g2) :: G2 ->
    Z.abs (dt a - dt b) > threshold.
Proof.
  induction l as [|t l IH]; intros G1 G2 g1 a b g2 E.
  - destruct G1; discriminate.
  - rewrite runs_cons in E.
    destruct (runs threshold l) as [|[|u r] rs] eqn:R; cbn [consRun] in E.
    + destruct G1 as [|g [|g' G1]]; discriminate.
    + destruct G1 as [|g G1]; cbn in E.
      * discriminate.
      * injection E as _ E. eapply (IH G1); exact E.
    + destruct (closeBy threshold t u) eqn:C.
      * destruct G1 as [|g G1]; cbn in E.
        -- injection E as E E'. subst rs.
           destruct g1 as [|x g1]; cbn in E.
           ++ discriminate.
           ++ injection E as _ E.
              eapply (IH [] G2 g1). cbn. rewrite E. reflexivity.
        -- injection E as _ E. subst rs.
           eapply (IH ((u :: r) :: G1)). cbn. reflexivity.
      * destruct G1 as [|g G1]; cbn in E.
        -- injection E as E Eb _ _. subst b.
           destruct g1 as [|x [|y g1]]; cbn in E; try discriminate.
           injection E as ->. now apply closeBy_gt.
        -- injection E as _ E. eapply (IH G1); exact E.
Qed.

End Runs.

(** ** The loop computes the runs *)

Section LoopRuns.

Variable segmentMax : Z.

Lemma glue_glue (cur : list Position) (u : Position) rs :
  glue cur (glue [u] rs) = glue (cur ++ [u]) rs.
Proof.
  destruct rs as [|r rs]; cbn [glue]; [reflexivity|].
  now rewrite <- app_assoc.
Qed.

Lemma runsFrom_glue (rest : list Position) :
  forall cur u,
    runsFrom segmentMax cur u rest = glue cur (runsFrom segmentMax [] u rest).
Proof.
  induction rest as [|t rest IH]; intros cur u; cbn [runsFrom].
  - reflexivity.
  - destruct (closeBy segmentMax u t); cbn [app].
    + rewrite (IH (cur ++ [u])), (IH [u]). now rewrite glue_glue.
    + reflexivity.
Qed.

Lemma runsFrom_runs (rest : list Position) :
  forall u, runsFrom segmentMax [] u rest = runs segmentMax (u :: rest).
Proof.
  induction rest as [|t rest IH]; intros u; cbn [runsFrom app].
  - reflexivity.
  - rewrite (runs_cons segmentMax u (t :: rest)).
    destruct (runs_head segmentMax t rest) as (r & rs & E).
    rewrite runsFrom_glue, IH, E. cbn [consRun glue app].
    destruct (closeBy segmentMax u t); reflexivity.
Qed.

Lemma longRun_map {A B : Type} (f : A -> B) (l : list A) :
  longRun (map f l) = longRun l.
Proof. unfold longRun. now rewrite length_map. Qed.

(** The loop invariant, read forwards: with the run [cur ++ [u]] open
    and [ls] already pushed, the loop and the clean-up after it add
    the long runs of what is left. *)
Lemma forEach_runsFrom (rest : list Position) :
  forall cur u ls,
  exists v,
    forEach (segmentStep segmentMax) rest
            {| lines := ls; segment := Some (map pointOf (cur ++ [u]));
               segmentDt := dt u |} = Ok v /\
    pushIfKeepable (lines v) (segment v) =
    ls ++ map (map pointOf)
              (filter longRun (runsFrom segmentMax cur u rest)).
Proof.
  induction rest as [|t rest IH]; intros cur u ls.
  - eexists; split; [reflexivity|].
    cbn [lines segment pushIfKeepable keepable runsFrom filter].
    fold (longRun (map pointOf (cur ++ [u]))). rewrite longRun_map.
    destruct (longRun (cur ++ [u])); cbn [map]; [reflexivity|].
    now rewrite app_nil_r.
  - cbn [forEach runsFrom]. unfold segmentStep at 1.
    cbn [segmentDt]. rewrite interval_closeBy.
    destruct (closeBy segmentMax u t); cbn [negb segment lines bind].
    + destruct (IH (cur ++ [u]) t ls) as (v & E & H).
      exists v. split; [|exact H].
      rewrite <- E, (map_app pointOf (cur ++ [u]) [t]). reflexivity.
    + cbn [pushIfKeepable keepable filter].
      fold (longRun (map pointOf (cur ++ [u]))). rewrite longRun_map.
      destruct (longRun (cur ++ [u])).
      * destruct (IH [] t (ls ++ [map pointOf (cur ++ [u])]))
          as (v & E & H).
        exists v. split; [exact E|]. rewrite H.
        cbn [map]. now rewrite <- app_assoc.
      * destruct (IH [] t ls) as (v & E & H).
        exists v. split; [exact E | exact H].
Qed.

(** The segmenter, characterised on every input: it throws exactly
    when the first point is within [segmentMax] of timestamp 0, and
    otherwise stores the long runs of its input. *)
Lemma segmentTrack_spec (track : list Position) :
  segmentTrack segmentMax track =
  match track with
  | [] => Ok []
  | t :: _ =>
      if Z.abs (dt t) >? segmentMax
      then Ok (map (map pointOf) (keptRuns segmentMax track))
      else Throw TypeError
  end.
Proof.
  destruct track as [|t rest]; [reflexivity|].
  unfold segmentTrack. cbn [forEach]. rewrite segmentStep_init.
  destruct (Z.abs (dt t) >? segmentMax); [|reflexivity].
  cbn [bind].
  destruct (forEach_runsFrom rest [] t []) as (v & E & H).
  cbn [app map] in E. unfold pointOf in E at 1. fold (pointOf t) in E.
  rewrite E. cbn [bind]. rewrite H, runsFrom_runs. reflexivity.
Qed.

End LoopRuns.

(** ** Sorting *)

Lemma insertDesc_head (x : Position) (l : list Position) :
  exists h s,
    insertDesc x l = h :: s /\ dt x <= dt h /\
    forall y l', l = y :: l' -> dt y <= dt h.
Proof.
  destruct l as [|y l']; cbn [insertDesc].
  - exists x, []. repeat split; [lia | discriminate].
  - unfold compareDt. destruct (dt y - dt x <=? 0) eqn:E.
    + apply Z.leb_le in E. exists x, (y :: l').
      repeat split; [lia|]. intros ? ? [= <- _]. lia.
    + apply Z.leb_gt in E. exists y, (insertDesc x l').
      repeat split; [lia|]. intros ? ? [= <- _]. lia.
Qed.

(** After the sort the newest position comes first. *)
Lemma sortTrack_head (l : list Position) (x : Position) :
  In x l -> exists h s, sortTrack l = h :: s /\ dt x <= dt h.
Proof.
  induction l as [|y l IH]; intros Hin; [destruct Hin|].
  change (sortTrack (y :: l)) with (insertDesc y (sortTrack l)).
  destruct (insertDesc_head y (sortTrack l)) as (h & s & E & Hy & Hl).
  exists h, s. split; [exact E|].
  destruct Hin as [<-|Hin]; [exact Hy|].
  destruct (IH Hin) as (h' & s' & E' & Hx).
  specialize (Hl h' s' E'). lia.
Qed.

Lemma insertDesc_perm (x : Position) (l : list Position) :
  Permutation (x :: l) (insertDesc x l).
Proof.
  induction l as [|y l IH]; cbn [insertDesc]; [apply Permutation_refl|].
  destruct (compareDt x y <=? 0); [apply Permutation_refl|].
  eapply perm_trans; [apply perm_swap|]. now apply perm_skip.
Qed.

Lemma sortTrack_perm (l : list Position) : Permutation l (sortTrack l).
Proof.
  induction l as [|y l IH]; [constructor|].
  change (sortTrack (y :: l)) with (insertDesc y (sortTrack l)).
  eapply perm_trans; [|apply insertDesc_perm]. now apply perm_skip.
Qed.

Lemma insertDesc_sorted (x : Position) (l : list Position) :
  Sorted newerFirst l -> Sorted newerFirst (insertDesc x l).
Proof.
  induction l as [|y l IH]; intros Hs; cbn [insertDesc].
  - repeat constructor.
  - unfold compareDt. destruct (dt y - dt x <=? 0) eqn:E.
    + apply Z.leb_le in E. constructor; [exact Hs|].
      constructor. unfold newerFirst. lia.
    + apply Z.leb_gt in E. inversion Hs as [|? ? Hl Hy]; subst.
      constructor; [now apply IH|].
      destruct l as [|z l]; cbn [insertDesc].
      * constructor. unfold newerFirst. lia.
      * unfold compareDt. destruct (dt z - dt x <=? 0).
        -- constructor. unfold newerFirst. lia.
        -- constructor. now inversion Hy.
Qed.

(** The sort puts the positions in descending order of [dt]. *)
Lemma sortTrack_sorted (l : list Position) : Sorted newerFirst (sortTrack l).
Proof.
  induction l as [|y l IH]; [constructor|].
  change (sortTrack (y :: l)) with (insertDesc y (sortTrack l)).
  now apply insertDesc_sorted.
Qed.

(** ** The segmenter: the stated properties *)

(** C1. Whatever the positions and the threshold, every segment the
    segmenter stores has more than one point: a segment is pushed to
    [lines], at a gap or in the clean-up after the loop, only under the
    test [segment.length > 1]. *)
Theorem segments_have_two_points (segmentMax : Z) (track : list Position)
        (ls : list Segment) :
  segmentTrack segmentMax track = Ok ls ->
  Forall (fun s => (1 < length s)%nat) ls.
Proof.
  unfold segmentTrack.
  destruct (forEach (segmentStep segmentMax) track initVars) as [v|e] eqn:E;
    cbn [bind]; [|discriminate].
  intros [= <-]. apply pushIfKeepable_long.
  eapply forEach_long; [|exact E]. constructor.
Qed.

(** C2. The stored segments are the long pieces of a cut of the input
    into consecutive non-empty groups, such that neighbours inside a
    group are at most [segmentMax] seconds apart and the two neighbours
    on either side of a cut are more than [segmentMax] seconds apart. *)
Theorem segments_respect_threshold (segmentMax : Z) (track : list Position)
        (ls : list Segment) :
  segmentTrack segmentMax track = Ok ls ->
  exists groups : list (list Position),
    concat groups = track /\
    (forall g, In g groups -> g <> []) /\
    ls = map (map pointOf) (filter longRun groups) /\
    (forall g p a b q,
        In g groups -> g = p ++ a :: b :: q ->
        Z.abs (dt a - dt b) <= segmentMax) /\
    (forall G1 g1 a b g2 G2,
        groups = G1 ++ (g1 ++ [a]) :: (b :: g2) :: G2 ->
        Z.abs (dt a - dt b) > segmentMax).
Proof.
  intros H. exists (runs segmentMax track).
  split; [apply runs_concat|].
  split; [apply Forall_forall, runs_nonempty|].
  split.
  - rewrite segmentTrack_spec in H. destruct track as [|t rest].
    + now injection H as <-.
    + destruct (Z.abs (dt t) >? segmentMax); [|discriminate].
      now injection H as <-.
  - split.
    + intros g p a b q Hin ->.
      destruct (in_split _ _ Hin) as (G1 & G2 & E).
      eapply runs_within; exact E.
    + intros G1 g1 a b g2 G2 E. eapply runs_across; exact E.
Qed.

(** C3. The points of the stored segments, concatenated in order, are
    the [(lat, lon)] pairs of the input with its single-point runs
    removed; the runs themselves are a cut of the input into consecutive
    pieces. *)
Theorem segments_reconstruct_input (segmentMax : Z) (track : list Position)
        (ls : list Segment) :
  segmentTrack segmentMax track = Ok ls ->
  concat (runs segmentMax track) = track /\
  ls = map (map pointOf) (keptRuns segmentMax track) /\
  concat ls = map pointOf (concat (keptRuns segmentMax track)).
Proof.
  intros H. split; [apply runs_concat|].
  assert (E : ls = map (map pointOf) (keptRuns segmentMax track)).
  { rewrite segmentTrack_spec in H. destruct track as [|t rest].
    - now injection H as <-.
    - destruct (Z.abs (dt t) >? segmentMax); [|discriminate].
      now injection H as <-. }
  split; [exact E|]. rewrite E. symmetry. apply concat_map.
Qed.

(** C5. When the first point's timestamp exceeds the threshold, the first
    iteration takes the gap branch from [segmentDt = 0] and opens a
    segment before anything is pushed; the loop then never pushes to a
    [null] segment, with or without the sort in front of it. *)
Theorem first_point_opens_segment (segmentMax : Z) (t : Position)
        (rest : list Position) :
  segmentMax < dt t ->
  segmentStep segmentMax initVars t =
    Ok {| lines := []; segment := Some [pointOf t]; segmentDt := dt t |} /\
  (exists ls, segmentTrack segmentMax (t :: rest) = Ok ls) /\
  (exists ls, sortAndSegment segmentMax (t :: rest) = Ok ls).
Proof.
  intros Hgt.
  assert (G : forall u, dt t <= dt u -> (Z.abs (dt u) >? segmentMax) = true).
  { intros u Hu. rewrite Z.gtb_ltb. apply Z.ltb_lt. lia. }
  split; [|split].
  - rewrite segmentStep_init, (G t); [reflexivity | lia].
  - rewrite segmentTrack_spec, (G t); [eauto | lia].
  - unfold sortAndSegment.
    destruct (sortTrack_head (t :: rest) t) as (h & s & E & Hh);
      [now left|].
    rewrite segmentTrack_spec, E, (G h Hh). eauto.
Qed.

(** ** A worked example *)

Example exampleSorted_segments :
  segmentTrack 180 exampleSorted = Ok exampleSegments.
Proof. reflexivity. Qed.

Lemma segments_have_two_points_witness :
  segmentTrack 180 exampleSorted = Ok exampleSegments /\
  Forall (fun s => (1 < length s)%nat) exampleSegments.
Proof.
  split; [reflexivity|].
  apply (segments_have_two_points 180 exampleSorted). reflexivity.
Defined.

Lemma segments_respect_threshold_witness :
  segmentTrack 180 exampleSorted = Ok exampleSegments /\
  exists groups : list (list Position),
    concat groups = exampleSorted /\
    (forall g, In g groups -> g <> []) /\
    exampleSegments = map (map pointOf) (filter longRun groups) /\
    (forall g p a b q,
        In g groups -> g = p ++ a :: b :: q ->
        Z.abs (dt a - dt b) <= 180) /\
    (forall G1 g1 a b g2 G2,
        groups = G1 ++ (g1 ++ [a]) :: (b :: g2) :: G2 ->
        Z.abs (dt a - dt b) > 180).
Proof.
  split; [reflexivity|].
  apply (segments_respect_threshold 180 exampleSorted). reflexivity.
Defined.

Lemma segments_reconstruct_input_witness :
  segmentTrack 180 exampleSorted = Ok exampleSegments /\
  concat (runs 180 exampleSorted) = exampleSorted /\
  exampleSegments = map (map pointOf) (keptRuns 180 exampleSorted) /\
  concat exampleSegments = map pointOf (concat (keptRuns 180 exampleSorted)).
Proof.
  split; [reflexivity|].
  apply (segments_reconstruct_input 180 exampleSorted). reflexivity.
Defined.

Lemma first_point_opens_segment_witness :
  180 < dt e5000 /\
  segmentStep 180 initVars e5000 =
    Ok {| lines := []; segment := Some [pointOf e5000];
          segmentDt := dt e5000 |} /\
  (exists ls, segmentTrack 180 [e5000; e190; e100] = Ok ls) /\
  (exists ls, sortAndSegment 180 [e5000; e190; e100] = Ok ls).
Proof.
  split; [reflexivity|].
  apply (first_point_opens_segment 180 e5000 [e190; e100]). reflexivity.
Defined.

(** The loop does throw when the first point is within the threshold of
    timestamp 0: the unsorted example starts at 100. *)
Example segmentTrack_unsorted_throws :
  segmentTrack 180 exampleTrack = Throw TypeError.
Proof. reflexivity. Qed.

(** C4, as the code has it.  On positions with timestamps 100, 190 and
    5000 and threshold 180, the sort puts them newest first, the runs are
    the single point 5000 and the pair 190, 100, and exactly one segment
    is stored, holding the points of 190 and 100 in that order. *)
Theorem example_pipeline (la1 lo1 c1 s1 la2 lo2 c2 s2 la3 lo3 c3 s3 : Q) :
  let a := mkPosition 100 la1 lo1 c1 s1 in
  let b := mkPosition 190 la2 lo2 c2 s2 in
  let c := mkPosition 5000 la3 lo3 c3 s3 in
  sortTrack [a; b; c] = [c; b; a] /\
  runs 180 [c; b; a] = [[c]; [b; a]] /\
  sortAndSegment 180 [a; b; c] = Ok [[(la2, lo2); (la1, lo1)]].
Proof.
  cbv zeta. repeat split.
Qed.

(** C4, as stated, fails: the stored segment does not list the point of
    100 before the point of 190. *)
Lemma example_order_counterexample :
  sortAndSegment 180 exampleTrack = Ok [[pointOf e190; pointOf e100]] /\
  sortAndSegment 180 exampleTrack <> Ok [[pointOf e100; pointOf e190]].
Proof.
  split; [reflexivity|]. intros H. discriminate H.
Qed.

(** ** The response handler and the renderer *)

Lemma processVessel_empty (segmentMax : Z) (v : VesselData) :
  track v = [] ->
  processVessel segmentMax v =
  Ok {| vessel := {| mmsi := mmsi v; name := name v; info := info v;
                     track := [] |};
        pos := None; vesselLines := [] |}.
Proof. intros E. unfold processVessel. rewrite E. reflexivity. Qed.

Lemma processTracks_In (segmentMax : Z) (data : list VesselData) :
  forall ts v,
    processTracks segmentMax data = Ok ts -> In v data ->
    exists v', processVessel segmentMax v = Ok v' /\ In v' ts.
Proof.
  induction data as [|d data IH]; intros ts v H Hin; [destruct Hin|].
  cbn [processTracks] in H.
  destruct (processVessel segmentMax d) as [d'|] eqn:Ed; cbn [bind] in H;
    [|discriminate].
  destruct (processTracks segmentMax data) as [ts'|] eqn:Et; cbn [bind] in H;
    [|discriminate].
  injection H as <-. destruct Hin as [<-|Hin].
  - exists d'. split; [exact Ed | now left].
  - destruct (IH ts' v eq_refl Hin) as (v' & E & Hin').
    exists v'. split; [exact E | now right].
Qed.

Section RenderFacts.

Variables Color Icon : Type.
Variable GetColor : string -> Color.
Variable GetIcon : string -> Icon.

Lemma renderVessel_no_pos (v : Vessel) :
  pos v = None -> renderVessel Color Icon GetColor GetIcon v = Throw TypeError.
Proof. intros E. unfold renderVessel. rewrite E. reflexivity. Qed.

(** One vessel that cannot be rendered takes the whole layer down. *)
Lemma render_throws (ts : list Vessel) (v : Vessel) :
  In v ts -> pos v = None ->
  render Color Icon GetColor GetIcon ts = Throw TypeError.
Proof.
  induction ts as [|u ts IH]; intros Hin Hv; [destruct Hin|].
  cbn [render].
  destruct (renderVessel Color Icon GetColor GetIcon u) as [g|[]] eqn:Eu;
    cbn [bind]; [|reflexivity].
  destruct Hin as [->|Hin].
  - rewrite (renderVessel_no_pos v Hv) in Eu. discriminate.
  - rewrite (IH Hin Hv). reflexivity.
Qed.

End RenderFacts.

(** C10. Nothing guards against an empty track: the handler accepts a
    vessel whose track is empty and leaves its head position undefined,
    and rendering any set of tracks that holds such a vessel throws at
    the head marker. *)
Theorem empty_track_breaks_render
        (Color Icon : Type) (GetColor : string -> Color)
        (GetIcon : string -> Icon)
        (segmentMax : Z) (data : list VesselData) (v : VesselData)
        (ts : list Vessel) :
  In v data -> track v = [] ->
  processTracks segmentMax data = Ok ts ->
  (exists v', processVessel segmentMax v = Ok v' /\ In v' ts /\
              pos v' = None /\ vesselLines v' = [] /\
              renderVessel Color Icon GetColor GetIcon v' = Throw TypeError) /\
  render Color Icon GetColor GetIcon ts = Throw TypeError.
Proof.
  intros Hin Hv H.
  destruct (processTracks_In segmentMax data ts v H Hin) as (v' & E & Hin').
  rewrite (processVessel_empty segmentMax v Hv) in E.
  injection E as <-. split.
  - eexists. split; [apply processVessel_empty; exact Hv|].
    split; [exact Hin'|]. repeat split.
  - eapply render_throws; [exact Hin' | reflexivity].
Qed.

Lemma empty_track_breaks_render_witness :
  processTracks 180 exampleResponse = Ok exampleProcessed /\
  render string string (fun c => c) (fun c => c) exampleProcessed
  = Throw TypeError.
Proof.
  split; [reflexivity|].
  apply (empty_track_breaks_render string string (fun c => c) (fun c => c)
           180 exampleResponse (exampleVessel 2 []) exampleProcessed).
  - right; left; reflexivity.
  - reflexivity.
  - reflexivity.
Defined.

(** ** The vessel tracker: counting failures *)

Lemma trackLayer_onCatch (st : TrackLayer.t) :
  TrackLayer.refreshErrors (TrackLayer.onCatch st)
  = S (TrackLayer.refreshErrors st) /\
  TrackLayer.tracks (TrackLayer.onCatch st)
  = if (S (TrackLayer.refreshErrors st) <? 5)%nat
    then TrackLayer.tracks st else [].
Proof.
  unfold TrackLayer.onCatch, TrackLayer.maxErrors.
  cbn [TrackLayer.withRefreshErrors TrackLayer.withWorld
       TrackLayer.refreshErrors TrackLayer.world].
  rewrite Nat.ltb_antisym.
  destruct (5 <=? S (TrackLayer.refreshErrors st))%nat; split; reflexivity.
Qed.

Lemma trackLayer_onFinally (st : TrackLayer.t) :
  TrackLayer.refreshErrors (TrackLayer.onFinally st)
  = TrackLayer.refreshErrors st /\
  TrackLayer.tracks (TrackLayer.onFinally st) = TrackLayer.tracks st.
Proof. split; reflexivity. Qed.

Lemma trackLayer_settle_rejected (st : TrackLayer.t) (id : nat) (r : Request)
      (o : Outcome) :
  findRequest id (TrackLayer.world st) = Some r ->
  trackLayerRejects st r o ->
  TrackLayer.settle id o st =
  TrackLayer.onFinally
    (TrackLayer.onCatch
       (TrackLayer.withWorld st (settled r (TrackLayer.world st)))).
Proof.
  intros Hf Hr. unfold TrackLayer.settle. rewrite Hf.
  destruct (isCancelled (TrackLayer.world st) r) eqn:C; [reflexivity|].
  destruct Hr as [Hr | [-> | (data & e & -> & Hr)]];
    [congruence | reflexivity|].
  unfold TrackLayer.onThen. rewrite Hr. reflexivity.
Qed.

Lemma trackLayerFailure_iter (k : nat) (st : TrackLayer.t) :
  TrackLayer.refreshErrors (Nat.iter k trackLayerFailure st)
  = (k + TrackLayer.refreshErrors st)%nat /\
  TrackLayer.tracks (Nat.iter k trackLayerFailure st)
  = if ((0 <? k) && (5 <=? k + TrackLayer.refreshErrors st))%nat
    then [] else TrackLayer.tracks st.
Proof.
  induction k as [|k [IHe IHt]].
  - split; reflexivity.
  - rewrite Nat.iter_succ.
    set (stk := Nat.iter k trackLayerFailure st) in *.
    unfold trackLayerFailure.
    destruct (trackLayer_onCatch stk) as [He Ht].
    destruct (trackLayer_onFinally (TrackLayer.onCatch stk)) as [-> ->].
    rewrite He, Ht, IHe, IHt. cbn [Nat.add]. split; [reflexivity|].
    rewrite (Nat.ltb_antisym 5).
    change (0 <? S k)%nat with true. cbn [andb].
    destruct (5 <=? S (k + TrackLayer.refreshErrors st))%nat eqn:E;
      cbn [negb]; [reflexivity|].
    apply Nat.leb_gt in E.
    destruct (5 <=? k + TrackLayer.refreshErrors st)%nat eqn:E';
      [apply Nat.leb_le in E'; lia|].
    now rewrite andb_false_r.
Qed.

(** C6. In the mounted vessel tracker every failed poll adds one to
    [refreshErrors] and every successful one sets it to 0 and displays
    the processed response, in which every vessel has a position; a
    failure leaves the displayed tracks as they are while the new count
    is below [maxErrors = 5], and empties them once the count has
    reached it. *)
Theorem failures_counted_then_cleared (st : TrackLayer.t) (id : nat)
        (r : Request) :
  TrackLayer.mounted st = true ->
  findRequest id (TrackLayer.world st) = Some r ->
  TrackLayer.maxErrors = 5%nat /\
  (forall o,
      trackLayerRejects st r o ->
      TrackLayer.refreshErrors (TrackLayer.settle id o st)
      = S (TrackLayer.refreshErrors st) /\
      TrackLayer.tracks (TrackLayer.settle id o st)
      = if (S (TrackLayer.refreshErrors st) <? 5)%nat
        then TrackLayer.tracks st else []) /\
  (forall data ts,
      isCancelled (TrackLayer.world st) r = false ->
      (forall v, In v data -> track v <> []) ->
      processTracks TrackLayer.segmentMax data = Ok ts ->
      TrackLayer.refreshErrors (TrackLayer.settle id (Response data) st)
      = 0%nat /\
      TrackLayer.tracks (TrackLayer.settle id (Response data) st) = ts) /\
  (forall k,
      TrackLayer.refreshErrors st = 0%nat ->
      TrackLayer.tracks (Nat.iter k trackLayerFailure st)
      = if (k <? 5)%nat then TrackLayer.tracks st else []).
Proof.
  intros _ Hf. split; [reflexivity|]. split; [|split].
  - intros o Hr. rewrite (trackLayer_settle_rejected st id r o Hf Hr).
    apply (trackLayer_onCatch
             (TrackLayer.withWorld st (settled r (TrackLayer.world st)))).
  - intros data ts C _ Hp. unfold TrackLayer.settle, TrackLayer.onThen.
    rewrite Hf, C, Hp. split; reflexivity.
  - intros k E0. destruct (trackLayerFailure_iter k st) as [_ ->].
    rewrite E0, Nat.add_0_r, (Nat.ltb_antisym 5 k).
    destruct (5 <=? k)%nat eqn:E; cbn [negb].
    + apply Nat.leb_le in E. destruct k; [lia | reflexivity].
    + now rewrite andb_false_r.
Qed.

Lemma failures_counted_then_cleared_witness :
  TrackLayer.mounted trackLayerLive = true /\
  findRequest 3 (TrackLayer.world trackLayerLive) = Some trackLayerRequest /\
  TrackLayer.refreshErrors (TrackLayer.settle 3 NetworkError trackLayerLive)
  = 1%nat /\
  TrackLayer.tracks
    (TrackLayer.settle 3 (Response olderResponse) trackLayerLive)
  = [exampleVesselDone] /\
  TrackLayer.tracks
    (Nat.iter 5 trackLayerFailure
       (TrackLayer.settle 3 (Response olderResponse) trackLayerLive))
  = [].
Proof.
  split; [reflexivity|]. split; [reflexivity|].
  destruct (failures_counted_then_cleared
              trackLayerLive 3 trackLayerRequest eq_refl eq_refl)
    as (_ & Hfail & Hok & _).
  split; [|split].
  - apply (Hfail NetworkError). right; left; reflexivity.
  - apply (Hok olderResponse [exampleVesselDone]).
    + reflexivity.
    + intros v [<-|[]]. discriminate.
    + reflexivity.
  - reflexivity.
Defined.

(** ** The history browser: failures are only logged *)

Lemma tracks_settle_cases (st : Tracks.t) (id : nat) (o : Outcome) :
  Tracks.tracks (Tracks.settle id o st) = Tracks.tracks st \/
  exists r data ts,
    findRequest id (Tracks.world st) = Some r /\
    isCancelled (Tracks.world st) r = false /\
    o = Response data /\
    processTracks (Tracks.segmentMax (reqMinVal r)) data = Ok ts /\
    Tracks.tracks (Tracks.settle id o st) = ts.
Proof.
  unfold Tracks.settle.
  destruct (findRequest id (Tracks.world st)) as [r|] eqn:Hf; [|now left].
  destruct (isCancelled (Tracks.world st) r) eqn:C; [now left|].
  destruct o as [data|]; [|now left].
  unfold Tracks.onThen.
  destruct (processTracks (Tracks.segmentMax (reqMinVal r)) data)
    as [ts|e] eqn:Hp; cbn [bind]; [|now left].
  right. exists r, data, ts. repeat split; assumption.
Qed.

(** C7. In the history browser a failed poll only adds a line to the
    log: the displayed tracks are the same after it, and after any
    number of failures in a row; the displayed tracks change only when a
    response has been processed to the end. *)
Theorem history_failure_keeps_tracks :
  (forall st,
      Tracks.tracks (Tracks.onCatch st) = Tracks.tracks st /\
      log (Tracks.world (Tracks.onCatch st))
      = log (Tracks.world st) ++ ["history refresh error"%string]) /\
  (forall st id,
      Tracks.tracks (Tracks.settle id NetworkError st) = Tracks.tracks st) /\
  (forall ids st,
      Tracks.tracks
        (fold_left (fun s id => Tracks.settle id NetworkError s) ids st)
      = Tracks.tracks st) /\
  (forall st id o,
      Tracks.tracks (Tracks.settle id o st) = Tracks.tracks st \/
      exists r data ts,
        o = Response data /\
        processTracks (Tracks.segmentMax (reqMinVal r)) data = Ok ts /\
        Tracks.tracks (Tracks.settle id o st) = ts).
Proof.
  assert (H1 : forall st id,
             Tracks.tracks (Tracks.settle id NetworkError st)
             = Tracks.tracks st).
  { intros st id.
    destruct (tracks_settle_cases st id NetworkError)
      as [E | (r & data & ts & _ & _ & E & _)]; [exact E | discriminate]. }
  split; [|split; [|split]].
  - intros st. split; reflexivity.
  - exact H1.
  - induction ids as [|id ids IH]; intros st; cbn [fold_left];
      [reflexivity|].
    now rewrite IH, H1.
  - intros st id o.
    destruct (tracks_settle_cases st id o)
      as [E | (r & data & ts & _ & _ & E & Hp & Et)]; [now left|].
    right. exists r, data, ts. repeat split; assumption.
Qed.

(** ** Refreshing while the page is hidden *)

(** C9. With [isVisible] false a tick of the vessel tracker returns at
    once: no request is issued, and the displayed tracks, the error
    count and the live timers are what they were.  The history browser
    does not do the same: its tick never reads the flag as it is now,
    and a browser mounted visible and hidden afterwards still cancels,
    and issues a request, on its next tick. *)
Theorem hidden_tick_tracker_not_history (st : TrackLayer.t) :
  TrackLayer.isVisible st = false ->
  (TrackLayer.refresh st = st /\
   inflight (TrackLayer.world (TrackLayer.refresh st))
   = inflight (TrackLayer.world st) /\
   timers (TrackLayer.world (TrackLayer.refresh st))
   = timers (TrackLayer.world st) /\
   TrackLayer.tracks (TrackLayer.refresh st) = TrackLayer.tracks st /\
   TrackLayer.refreshErrors (TrackLayer.refresh st)
   = TrackLayer.refreshErrors st) /\
  (forall b h,
      TracksHost.hooks (TracksHost.tick (TracksHost.setVisible b h))
      = TracksHost.hooks (TracksHost.tick h)) /\
  let h := TracksHost.setVisible false
             (TracksHost.startupFired
                (TracksHost.mount visibleProps emptyWorld)) in
  Tracks.isVisible (TracksHost.props h) = false /\
  inflight (Tracks.world (TracksHost.hooks (TracksHost.tick h)))
  = inflight (Tracks.world (TracksHost.hooks h)) ++ [hiddenTickRequest] /\
  outstanding (Tracks.world (TracksHost.hooks (TracksHost.tick h)))
  = [hiddenTickRequest].
Proof.
  intros Hst.
  assert (E1 : TrackLayer.refresh st = st)
    by (unfold TrackLayer.refresh; now rewrite Hst).
  split; [rewrite E1; repeat split|].
  split; [intros b h; reflexivity|].
  cbv zeta. repeat split.
Qed.

Lemma hidden_tick_tracker_not_history_witness :
  TrackLayer.isVisible trackLayerHidden = false /\
  TrackLayer.refresh trackLayerHidden = trackLayerHidden /\
  timers (TrackLayer.world (TrackLayer.refresh trackLayerHidden)) = [4%nat].
Proof.
  split; [reflexivity|].
  destruct (hidden_tick_tracker_not_history trackLayerHidden eq_refl)
    as ((E1 & _ & T1 & _) & _).
  split; [exact E1|]. rewrite T1. reflexivity.
Defined.

(** ** Overlapping polls *)

Lemma filter_none {A : Type} (f : A -> bool) (l : list A) :
  (forall x, In x l -> f x = false) -> filter f l = [].
Proof.
  induction l as [|a l IH]; intros H; [reflexivity|].
  cbn [filter]. rewrite (H a (or_introl eq_refl)).
  apply IH. intros x Hx. apply H. now right.
Qed.

Lemma existsb_fresh (n : nat) (l : list nat) :
  Forall (fun c => (c < n)%nat) l -> existsb (Nat.eqb n) l = false.
Proof.
  induction 1 as [|c l Hc _ IH]; [reflexivity|].
  cbn [existsb]. rewrite IH, orb_false_r. apply Nat.eqb_neq. lia.
Qed.

(** A request whose token has been cancelled never reaches the displayed
    tracks, however its promise settles. *)
Lemma tracks_cancelled_not_applied (st : Tracks.t) (id : nat) (r : Request)
      (o : Outcome) :
  findRequest id (Tracks.world st) = Some r ->
  isCancelled (Tracks.world st) r = true ->
  Tracks.tracks (Tracks.settle id o st) = Tracks.tracks st.
Proof.
  intros Hf C. unfold Tracks.settle. rewrite Hf, C. reflexivity.
Qed.

(** C8, as the code has it.  The history browser's refresh cancels the
    token it holds and issues its request under a fresh one: if every
    request still outstanding carries the held token, the new request is
    the only one outstanding afterwards, and a request whose token was
    cancelled never changes the displayed tracks.  The vessel tracker's
    refresh cancels nothing and adds its request to those in flight. *)
Theorem history_refresh_cancels_held_token (p : Tracks.Props) (st : Tracks.t)
        (tl : TrackLayer.t) :
  Tracks.isVisible p = true ->
  (Tracks.requestRef st < nextId (Tracks.world st))%nat ->
  Forall (fun c => (c < nextId (Tracks.world st))%nat)
         (cancelled (Tracks.world st)) ->
  TrackLayer.isVisible tl = true ->
  let st' := Tracks.refresh p st in
  let new := {| reqId := S (nextId (Tracks.world st));
                reqToken := nextId (Tracks.world st);
                reqMinVal := Tracks.minVal p |} in
  cancelled (Tracks.world st')
  = Tracks.requestRef st :: cancelled (Tracks.world st) /\
  Tracks.requestRef st' = nextId (Tracks.world st) /\
  inflight (Tracks.world st') = inflight (Tracks.world st) ++ [new] /\
  ((forall r, In r (outstanding (Tracks.world st)) ->
              reqToken r = Tracks.requestRef st) ->
   outstanding (Tracks.world st') = [new]) /\
  (forall id r o,
      findRequest id (Tracks.world st') = Some r ->
      isCancelled (Tracks.world st') r = true ->
      Tracks.tracks (Tracks.settle id o st') = Tracks.tracks st') /\
  cancelled (TrackLayer.world (TrackLayer.refresh tl))
  = cancelled (TrackLayer.world tl) /\
  inflight (TrackLayer.world (TrackLayer.refresh tl))
  = inflight (TrackLayer.world tl) ++
    [{| reqId := nextId (TrackLayer.world tl);
        reqToken := TrackLayer.requestRef tl; reqMinVal := 1 |}].
Proof.
  intros Hp Href Hc Htl st' new.
  assert (Est : st' =
    {| Tracks.startupTimer := Tracks.startupTimer st;
       Tracks.refreshTimer := Tracks.refreshTimer st;
       Tracks.requestRef := nextId (Tracks.world st);
       Tracks.tracks := Tracks.tracks st;
       Tracks.world :=
         {| nextId := S (S (nextId (Tracks.world st)));
            cancelled := Tracks.requestRef st :: cancelled (Tracks.world st);
            inflight := inflight (Tracks.world st) ++ [new];
            timers := timers (Tracks.world st);
            log := log (Tracks.world st) ++ ["history"%string] |} |}).
  { unfold st', Tracks.refresh. rewrite Hp. reflexivity. }
  split; [rewrite Est; reflexivity|].
  split; [rewrite Est; reflexivity|].
  split; [rewrite Est; reflexivity|].
  split; [|split; [|split]].
  - intros Hheld. rewrite Est. unfold outstanding.
    cbn [Tracks.world inflight]. rewrite filter_app.
    rewrite filter_none.
    + cbn [filter app]. unfold isCancelled.
      cbn [cancelled reqToken new existsb].
      rewrite (existsb_fresh _ _ Hc), orb_false_r.
      replace (nextId (Tracks.world st) =? Tracks.requestRef st)%nat
        with false by (symmetry; apply Nat.eqb_neq; lia).
      reflexivity.
    + intros r Hr. unfold isCancelled. cbn [cancelled existsb].
      destruct (existsb (Nat.eqb (reqToken r)) (cancelled (Tracks.world st)))
        eqn:C; [now rewrite orb_true_r|].
      rewrite (Hheld r).
      * now rewrite Nat.eqb_refl.
      * unfold outstanding. apply filter_In. split; [exact Hr|].
        unfold isCancelled. now rewrite C.
  - intros id r o. apply tracks_cancelled_not_applied.
  - unfold TrackLayer.refresh. rewrite Htl. reflexivity.
  - unfold TrackLayer.refresh. rewrite Htl. reflexivity.
Qed.

Lemma history_refresh_cancels_held_token_witness :
  outstanding (Tracks.world historyMounted)
  = [{| reqId := 3; reqToken := 2; reqMinVal := 1 |}] /\
  outstanding (Tracks.world (Tracks.refresh visibleProps historyMounted))
  = [{| reqId := 5; reqToken := 4; reqMinVal := 1 |}] /\
  Tracks.tracks
    (Tracks.settle 3 (Response exampleResponse)
       (Tracks.refresh visibleProps historyMounted))
  = [].
Proof.
  destruct (history_refresh_cancels_held_token
              visibleProps historyMounted trackLayerLive eq_refl)
    as (_ & _ & _ & Hone & Hnot & _).
  - cbn. lia.
  - repeat constructor.
  - reflexivity.
  - split; [reflexivity|]. split.
    + apply Hone. intros r [<-|[]]. reflexivity.
    + rewrite (Hnot 3%nat {| reqId := 3; reqToken := 2; reqMinVal := 1 |});
        reflexivity.
Defined.

(** C8, as stated, fails in the vessel tracker: a second tick while the
    first request is in flight cancels nothing, both requests are
    outstanding, and the answer to the older one, arriving last, is what
    ends up displayed. *)
Lemma overlapping_polls_counterexample :
  let st := TrackLayer.refresh trackLayerLive in
  cancelled (TrackLayer.world st) = [] /\
  outstanding (TrackLayer.world st)
  = [ {| reqId := 3; reqToken := 2; reqMinVal := 1 |};
      {| reqId := 5; reqToken := 2; reqMinVal := 1 |} ] /\
  ~ atMostOneOutstanding (TrackLayer.world st) /\
  Ok (TrackLayer.tracks
        (TrackLayer.settle 3 (Response olderResponse)
           (TrackLayer.settle 5 (Response newerResponse) st)))
  = processTracks TrackLayer.segmentMax olderResponse.
Proof.
  cbv zeta. split; [reflexivity|]. split; [reflexivity|]. split.
  - unfold atMostOneOutstanding. cbn. lia.
  - reflexivity.
Qed.

(** In the history browser the [.finally] of a cancelled request replaces
    the held token while the request that cancelled it is in flight: the
    next refresh cancels the replacement, and two requests are
    outstanding. *)
Example history_three_polls :
  let st := Tracks.refresh visibleProps
              (Tracks.settle 3 NetworkError historyLive) in
  outstanding (Tracks.world historyLive)
  = [{| reqId := 5; reqToken := 4; reqMinVal := 1 |}] /\
  outstanding (Tracks.world st)
  = [ {| reqId := 5; reqToken := 4; reqMinVal := 1 |};
      {| reqId := 9; reqToken := 8; reqMinVal := 1 |} ].
Proof. cbv zeta. split; reflexivity. Qed.

(** * Further properties *)

(** ** The segmenter at its edges *)

(** The segmenter throws exactly on the tracks whose first point lies
    within [segmentMax] seconds of timestamp 0: only then is
    [segment.push] reached with [segment] still [null].  On every other
    track, the empty one included, it returns normally. *)
Theorem segmentTrack_throws_iff (segmentMax : Z) (track : list Position) :
  (segmentTrack segmentMax track = Throw TypeError <->
   exists t rest, track = t :: rest /\ Z.abs (dt t) <= segmentMax) /\
  ((exists ls, segmentTrack segmentMax track = Ok ls) <->
   track = [] \/
   exists t rest, track = t :: rest /\ segmentMax < Z.abs (dt t)).
Proof.
  rewrite segmentTrack_spec. destruct track as [|t rest].
  - split; split.
    + discriminate.
    + intros (t & rest & E & _). discriminate.
    + now left.
    + eauto.
  - destruct (Z.abs (dt t) >? segmentMax) eqn:G.
    + assert (segmentMax < Z.abs (dt t))
        by (rewrite Z.gtb_ltb in G; now apply Z.ltb_lt).
      split; split.
      * discriminate.
      * intros (t' & rest' & [= <- <-] & Hle). lia.
      * intros _. right. eauto.
      * eauto.
    + assert (Z.abs (dt t) <= segmentMax)
        by (rewrite Z.gtb_ltb in G; now apply Z.ltb_ge).
      split; split.
      * intros _. eauto.
      * reflexivity.
      * intros (ls & E). discriminate.
      * intros [E | (t' & rest' & [= <- <-] & Hlt)]; [discriminate | lia].
Qed.

Lemma runs_negative (threshold : Z) (l : list Position) :
  threshold < 0 -> filter longRun (runs threshold l) = [] /\
                   Forall (fun r => length r = 1%nat) (runs threshold l).
Proof.
  intros Hneg. induction l as [|t l [IHf IHs]]; [split; constructor|].
  rewrite runs_cons.
  destruct (runs threshold l) as [|[|u r] rs] eqn:R; cbn [consRun].
  - split; [reflexivity | repeat constructor].
  - inversion IHs; subst. discriminate.
  - replace (closeBy threshold t u) with false
      by (symmetry; apply closeBy_gt; lia).
    split; [exact IHf | constructor; [reflexivity | exact IHs]].
Qed.

(** With a negative threshold, which the history browser computes from a
    negative [mins] prop, every point starts a segment of its own and no
    segment is ever kept: the result is the empty list, on every track. *)
Theorem negative_threshold_no_segments (segmentMax : Z)
        (track : list Position) :
  segmentMax < 0 -> segmentTrack segmentMax track = Ok [].
Proof.
  intros Hneg. rewrite segmentTrack_spec. destruct track as [|t rest];
    [reflexivity|].
  replace (Z.abs (dt t) >? segmentMax) with true
    by (symmetry; rewrite Z.gtb_ltb; apply Z.ltb_lt; lia).
  unfold keptRuns.
  now rewrite (proj1 (runs_negative segmentMax (t :: rest) Hneg)).
Qed.

Lemma negative_threshold_no_segments_witness :
  Tracks.segmentMax (Tracks.minVal
    {| Tracks.isVisible := true; Tracks.timeframe := "All";
       Tracks.mins := Tracks.Minutes (-1) |}) < 0 /\
  segmentTrack (-180) exampleSorted = Ok [].
Proof.
  split; [reflexivity|].
  apply (negative_threshold_no_segments (-180) exampleSorted). reflexivity.
Defined.

Lemma runs_gapless (threshold : Z) (l : list Position) :
  l <> [] ->
  (forall p a b q, l = p ++ a :: b :: q ->
                   Z.abs (dt a - dt b) <= threshold) ->
  runs threshold l = [l].
Proof.
  induction l as [|t l IH]; intros Hne Hclose; [congruence|].
  rewrite runs_cons. destruct l as [|u r]; [reflexivity|].
  rewrite IH.
  - cbn [consRun].
    replace (closeBy threshold t u) with true; [reflexivity|].
    symmetry. apply closeBy_le. apply (Hclose [] t u r). reflexivity.
  - discriminate.
  - intros p a b q E. apply (Hclose (t :: p) a b q). cbn. now rewrite E.
Qed.

(** A track of two or more points without a gap, whose first timestamp
    is more than [segmentMax], comes out as one segment that holds every
    point in the order of the track. *)
Theorem gapless_track_one_segment (segmentMax : Z) (t u : Position)
        (rest : list Position) :
  segmentMax < Z.abs (dt t) ->
  (forall p a b q, t :: u :: rest = p ++ a :: b :: q ->
                   Z.abs (dt a - dt b) <= segmentMax) ->
  segmentTrack segmentMax (t :: u :: rest)
  = Ok [map pointOf (t :: u :: rest)].
Proof.
  intros Hfirst Hclose. rewrite segmentTrack_spec.
  replace (Z.abs (dt t) >? segmentMax) with true
    by (symmetry; rewrite Z.gtb_ltb; apply Z.ltb_lt; lia).
  unfold keptRuns. rewrite runs_gapless; [reflexivity | discriminate|].
  exact Hclose.
Qed.

Lemma gapless_track_one_segment_witness :
  segmentTrack 180 exampleRun = Ok [map pointOf exampleRun].
Proof.
  apply (gapless_track_one_segment 180 (examplePosition 5200 2)
           (examplePosition 5100 3) [examplePosition 5000 4]).
  - reflexivity.
  - intros p a b q E.
    destruct p as [|x1 [|x2 [|x3 p]]]; cbn in E.
    + injection E as <- <- _. cbn. lia.
    + injection E as _ <- <- _. cbn. lia.
    + injection E as _ _ E. discriminate.
    + injection E as _ _ _ E. destruct p; discriminate.
Defined.

Lemma consRun_app (threshold : Z) (t : Position) (r : list Position)
      (A B : list (list Position)) :
  consRun threshold t ((r :: A) ++ B) = consRun threshold t (r :: A) ++ B.
Proof.
  cbn [app consRun]. destruct r as [|u r]; [reflexivity|].
  destruct (closeBy threshold t u); reflexivity.
Qed.

(** Runs do not reach across a gap: the runs of two tracks put end to
    end, with a gap at the joint, are the runs of the one followed by
    the runs of the other. *)
Lemma runs_app_gap (threshold : Z) (l1 : list Position) (a b : Position)
      (l2 : list Position) :
  Z.abs (dt a - dt b) > threshold ->
  runs threshold ((l1 ++ [a]) ++ b :: l2)
  = runs threshold (l1 ++ [a]) ++ runs threshold (b :: l2).
Proof.
  intros Hgap. induction l1 as [|x l1 IH].
  - cbn [app]. rewrite (runs_cons threshold a (b :: l2)).
    destruct (runs_head threshold b l2) as (r & rs & E). rewrite E.
    cbn [consRun]. apply closeBy_gt in Hgap. rewrite Hgap. reflexivity.
  - cbn [app] in *. rewrite !runs_cons, IH.
    destruct (l1 ++ [a]) as [|y l'] eqn:El; [destruct l1; discriminate|].
    destruct (runs_head threshold y l') as (r & A & R). rewrite R.
    apply consRun_app.
Qed.

(** Segmentation composes over a gap: when two tracks are segmented
    without an exception and the last point of the first is more than
    [segmentMax] from the first point of the second, the track made of
    the two put end to end gives the segments of the first followed by
    the segments of the second. *)
Theorem segments_compose_at_gap (segmentMax : Z) (l1 : list Position)
        (a b : Position) (l2 : list Position) (s1 s2 : list Segment) :
  Z.abs (dt a - dt b) > segmentMax ->
  segmentTrack segmentMax (l1 ++ [a]) = Ok s1 ->
  segmentTrack segmentMax (b :: l2) = Ok s2 ->
  segmentTrack segmentMax ((l1 ++ [a]) ++ b :: l2) = Ok (s1 ++ s2).
Proof.
  intros Hgap H1 H2.
  assert (K : forall l ls, l <> [] -> segmentTrack segmentMax l = Ok ls ->
              ls = map (map pointOf) (keptRuns segmentMax l) /\
              exists t rest, l = t :: rest /\
                             (Z.abs (dt t) >? segmentMax) = true).
  { intros l ls Hne H. rewrite segmentTrack_spec in H.
    destruct l as [|t rest]; [congruence|].
    destruct (Z.abs (dt t) >? segmentMax) eqn:G; [|discriminate].
    injection H as <-. split; [reflexivity | eauto]. }
  destruct (K _ _ (fun E => app_cons_not_nil _ _ _ (eq_sym E)) H1)
    as (-> & t & rest & E1 & G).
  destruct (K (b :: l2) _ ltac:(discriminate) H2) as (-> & _).
  rewrite segmentTrack_spec, E1. cbn [app]. rewrite G, <- E1.
  unfold keptRuns. change (t :: rest ++ b :: l2) with ((t :: rest) ++ b :: l2).
  rewrite <- E1, (runs_app_gap segmentMax l1 a b l2 Hgap).
  now rewrite filter_app, map_app.
Qed.

Lemma segments_compose_at_gap_witness :
  segmentTrack 180 ([examplePosition 5100 3] ++ [examplePosition 5000 4])
  = Ok [map pointOf [examplePosition 5100 3; examplePosition 5000 4]] /\
  segmentTrack 180 ([examplePosition 5100 3; examplePosition 5000 4]
                    ++ [examplePosition 1100 6; examplePosition 1000 7])
  = Ok ([map pointOf [examplePosition 5100 3; examplePosition 5000 4]] ++
        [map pointOf [examplePosition 1100 6; examplePosition 1000 7]]).
Proof.
  split; [reflexivity|].
  apply (segments_compose_at_gap 180 [examplePosition 5100 3]
           (examplePosition 5000 4) (examplePosition 1100 6)
           [examplePosition 1000 7]).
  - cbn. lia.
  - reflexivity.
  - reflexivity.
Defined.

Lemma longRuns_length {A : Type} (rs : list (list A)) :
  (2 * length (filter longRun rs) <= length (concat (filter longRun rs)))%nat
  /\ (length (concat (filter longRun rs)) <= length (concat rs))%nat.
Proof.
  induction rs as [|r rs [IH1 IH2]]; [split; reflexivity|].
  cbn [filter]. destruct (longRun r) eqn:E; cbn [concat length];
    rewrite ?length_app; [apply Nat.ltb_lt in E|]; split; lia.
Qed.

Lemma segmentTrack_kept (segmentMax : Z) (track : list Position)
      (ls : list Segment) :
  segmentTrack segmentMax track = Ok ls ->
  ls = map (map pointOf) (keptRuns segmentMax track).
Proof.
  intros H. rewrite segmentTrack_spec in H. destruct track as [|t rest].
  - now injection H as <-.
  - destruct (Z.abs (dt t) >? segmentMax); [|discriminate].
    now injection H as <-.
Qed.

(** A track of [n] positions gives at most [n / 2] segments, and the
    segments together hold at most [n] points. *)
Theorem segment_count_bound (segmentMax : Z) (track : list Position)
        (ls : list Segment) :
  segmentTrack segmentMax track = Ok ls ->
  (2 * length ls <= length (concat ls))%nat /\
  (length (concat ls) <= length track)%nat.
Proof.
  intros H.
  rewrite (segmentTrack_kept segmentMax track ls H).
  rewrite <- concat_map, length_map, length_map.
  destruct (longRuns_length (runs segmentMax track)) as [H1 H2].
  unfold keptRuns. rewrite (runs_concat segmentMax track) in H2. lia.
Qed.

Lemma segment_count_bound_witness :
  (2 * length exampleSegments <= length (concat exampleSegments))%nat /\
  (length (concat exampleSegments) <= length exampleSorted)%nat.
Proof.
  apply (segment_count_bound 180 exampleSorted exampleSegments).
  reflexivity.
Defined.

(** ** The response handler on one vessel and on a whole response *)

Lemma sortTrack_nil_iff (l : list Position) : sortTrack l = [] <-> l = [].
Proof.
  split; [|now intros ->].
  destruct l as [|t l]; [reflexivity|]. intros E.
  destruct (sortTrack_head (t :: l) t (or_introl eq_refl)) as (h & s & E' & _).
  congruence.
Qed.

(** What the handler leaves on a vessel: the identity fields as they came,
    the same positions newest first, and as head position the newest of
    them, undefined exactly when there is no position at all. *)
Theorem processVessel_newest_first (segmentMax : Z) (v : VesselData)
        (v' : Vessel) :
  processVessel segmentMax v = Ok v' ->
  mmsi (vessel v') = mmsi v /\ name (vessel v') = name v /\
  info (vessel v') = info v /\
  Permutation (track v) (track (vessel v')) /\
  Sorted newerFirst (track (vessel v')) /\
  (pos v' = None <-> track v = []) /\
  (forall p, pos v' = Some p ->
             In p (track v) /\ forall q, In q (track v) -> dt q <= dt p).
Proof.
  unfold processVessel.
  destruct (segmentTrack segmentMax (sortTrack (track v))) as [ls|e];
    cbn [bind]; [|discriminate].
  intros [= <-]. cbn [vessel pos mmsi name info track].
  repeat split.
  - apply sortTrack_perm.
  - apply sortTrack_sorted.
  - intros E. apply sortTrack_nil_iff.
    destruct (sortTrack (track v)); [reflexivity | discriminate].
  - intros ->. reflexivity.
  - apply (Permutation_in _ (Permutation_sym (sortTrack_perm (track v)))).
    destruct (sortTrack (track v)) as [|h s]; [discriminate|].
    injection H as <-. now left.
  - intros q Hq.
    destruct (sortTrack_head (track v) q Hq) as (h & s & E & Hle).
    rewrite E in H. now injection H as <-.
Qed.

Lemma processVessel_newest_first_witness :
  processVessel 180 exampleVesselData = Ok exampleVesselDone /\
  forall q, In q (track exampleVesselData) -> dt q <= 1700000060.
Proof.
  split; [reflexivity|].
  destruct (processVessel_newest_first 180 exampleVesselData
              exampleVesselDone eq_refl)
    as (_ & _ & _ & _ & _ & _ & Hmax).
  apply (Hmax (examplePosition 1700000060 2) eq_refl).
Defined.

Lemma processVessel_ok_iff (segmentMax : Z) (v : VesselData) :
  (exists v', processVessel segmentMax v = Ok v') <->
  (forall h s, sortTrack (track v) = h :: s -> segmentMax < Z.abs (dt h)).
Proof.
  unfold processVessel. rewrite segmentTrack_spec.
  destruct (sortTrack (track v)) as [|h s]; cbn [bind].
  - split; [discriminate | eauto].
  - destruct (Z.abs (dt h) >? segmentMax) eqn:G; cbn [bind].
    + split; [|eauto]. intros _ ? ? [= <- <-].
      rewrite Z.gtb_ltb in G. now apply Z.ltb_lt.
    + split.
      * intros (v' & E). discriminate.
      * intros H. specialize (H h s eq_refl).
        rewrite Z.gtb_ltb in G. apply Z.ltb_ge in G. lia.
Qed.

Lemma processTracks_Forall2 (segmentMax : Z) (data : list VesselData) :
  forall ts, processTracks segmentMax data = Ok ts <->
             Forall2 (fun v v' => processVessel segmentMax v = Ok v') data ts.
Proof.
  induction data as [|d data IH]; intros ts; cbn [processTracks].
  - split.
    + intros [= <-]. constructor.
    + intros H. inversion H. reflexivity.
  - split.
    + destruct (processVessel segmentMax d) as [d'|] eqn:Ed; cbn [bind];
        [|discriminate].
      destruct (processTracks segmentMax data) as [ts'|] eqn:Et; cbn [bind];
        [|discriminate].
      intros [= <-]. constructor; [exact Ed | now apply IH].
    + intros H. inversion H as [|? d' ? ts' Ed Hrest]; subst.
      rewrite Ed. cbn [bind]. apply IH in Hrest. rewrite Hrest.
      reflexivity.
Qed.

(** The handler works through a response vessel by vessel and fails as a
    whole as soon as one vessel fails.  It succeeds exactly when the
    newest position of every non-empty track is more than [segmentMax]
    from timestamp 0, so in particular on every response whose
    timestamps all exceed [segmentMax]. *)
Theorem processTracks_succeeds_iff (segmentMax : Z)
        (data : list VesselData) :
  ((exists ts, processTracks segmentMax data = Ok ts) <->
   (forall v h s, In v data -> sortTrack (track v) = h :: s ->
                  segmentMax < Z.abs (dt h))) /\
  ((forall v p, In v data -> In p (track v) -> segmentMax < dt p) ->
   exists ts, processTracks segmentMax data = Ok ts) /\
  (forall ts, processTracks segmentMax data = Ok ts ->
              Forall2 (fun v v' => processVessel segmentMax v = Ok v')
                      data ts).
Proof.
  assert (Hiff : (exists ts, processTracks segmentMax data = Ok ts) <->
                 (forall v h s, In v data -> sortTrack (track v) = h :: s ->
                                segmentMax < Z.abs (dt h))).
  { induction data as [|d data IH]; cbn [processTracks].
    - split; [intros _ v h s [] | eauto].
    - split.
      + intros (ts & E) v h s Hin Hs.
        destruct (processVessel segmentMax d) as [d'|] eqn:Ed; cbn [bind] in E;
          [|discriminate].
        destruct (processTracks segmentMax data) as [ts'|] eqn:Et;
          cbn [bind] in E; [|discriminate].
        destruct Hin as [<-|Hin].
        * apply (proj1 (processVessel_ok_iff segmentMax d)) with (s := s);
            eauto.
        * apply (proj1 IH (ex_intro _ ts' eq_refl) v h s Hin Hs).
      + intros H.
        destruct (proj2 (processVessel_ok_iff segmentMax d)) as (d' & Ed).
        { intros h s. apply H. now left. }
        destruct (proj2 IH) as (ts' & Et).
        { intros v h s Hin. apply H. now right. }
        rewrite Ed, Et. cbn [bind]. eauto. }
  split; [exact Hiff|]. split.
  - intros Hreal. apply Hiff. intros v h s Hin Hs.
    assert (In h (track v)).
    { apply (Permutation_in _ (Permutation_sym (sortTrack_perm (track v)))).
      rewrite Hs. now left. }
    specialize (Hreal v h Hin H). lia.
  - intros ts. apply processTracks_Forall2.
Qed.

Lemma processTracks_succeeds_iff_witness :
  exists ts, processTracks 180 exampleResponse = Ok ts.
Proof.
  apply (processTracks_succeeds_iff 180 exampleResponse).
  intros v p [<-|[<-|[]]] Hp; cbn in Hp.
  - destruct Hp as [<-|[<-|[]]]; reflexivity.
  - destruct Hp.
Defined.

(** ** Rendering what the handler produced *)

Section RenderProcessed.

Variables Color Icon : Type.
Variable GetColor : string -> Color.
Variable GetIcon : string -> Icon.

(** What one vessel is drawn as: a polyline for each of its segments, a
    circle for each of its positions, and the head marker at [pos]. *)
Definition drawnAs (v' : Vessel) (g : list (Primitive Color Icon)) : Prop :=
  exists p,
    pos v' = Some p /\
    g = map (fun s => Polyline s (GetColor (infoColor (info (vessel v')))))
            (vesselLines v')
        ++ map (fun q => CircleMarker q
                           (GetColor (infoColor (info (vessel v')))))
               (track (vessel v'))
        ++ [Marker (lat p, lon p) (GetIcon (infoColor (info (vessel v'))))
                   (infoName (info (vessel v'))) (dt p)].

Lemma render_all_positions (ts : list Vessel) :
  Forall (fun v' => pos v' <> None) ts ->
  exists gs,
    render Color Icon GetColor GetIcon ts = Ok gs /\
    Forall2 drawnAs ts gs.
Proof.
  induction 1 as [|v' ts Hv _ (gs & E & Hgs)]; cbn [render].
  - exists []. split; [reflexivity | constructor].
  - unfold renderVessel.
    destruct (pos v') as [p|] eqn:Ep; [|congruence].
    cbn [bind]. rewrite E. cbn [bind]. eexists. split; [reflexivity|].
    constructor; [|exact Hgs].
    exists p. split; [exact Ep | reflexivity].
Qed.

End RenderProcessed.

Lemma processVessel_pos_none (segmentMax : Z) (v : VesselData)
      (v' : Vessel) :
  processVessel segmentMax v = Ok v' -> pos v' = None -> track v = [].
Proof.
  unfold processVessel.
  destruct (segmentTrack segmentMax (sortTrack (track v))); cbn [bind];
    [|discriminate].
  intros [= <-]. cbn [pos]. intros E. apply sortTrack_nil_iff.
  destruct (sortTrack (track v)); [reflexivity | discriminate].
Qed.

(** A response in which every vessel has a position is processed into
    tracks in which every vessel has a head position. *)
Lemma processTracks_all_positions (segmentMax : Z) (data : list VesselData)
      (ts : list Vessel) :
  processTracks segmentMax data = Ok ts ->
  (forall v, In v data -> track v <> []) ->
  Forall (fun v' => pos v' <> None) ts.
Proof.
  intros H. apply processTracks_Forall2 in H.
  induction H as [|v v' data ts Hv _ IH]; intros Hne; constructor.
  - intros Hpos. apply (Hne v (or_introl eq_refl)).
    exact (processVessel_pos_none segmentMax v v' Hv Hpos).
  - apply IH. intros u Hu. apply Hne. now right.
Qed.

(** Rendering the tracks the handler produced fails only because of a
    vessel without positions: it throws exactly when the response held a
    vessel with an empty track, and otherwise draws, for every vessel
    and in this order, a polyline along each of its segments, a circle at
    each of its positions and the head marker at its newest position. *)
Theorem render_fails_only_on_empty_track
        (Color Icon : Type) (GetColor : string -> Color)
        (GetIcon : string -> Icon)
        (segmentMax : Z) (data : list VesselData) (ts : list Vessel) :
  processTracks segmentMax data = Ok ts ->
  (render Color Icon GetColor GetIcon ts = Throw TypeError <->
   exists v, In v data /\ track v = []) /\
  ((forall v, In v data -> track v <> []) ->
   exists gs,
     render Color Icon GetColor GetIcon ts = Ok gs /\
     Forall2
       (fun v' g =>
          exists p,
            pos v' = Some p /\
            g = map (fun s => Polyline s
                                (GetColor (infoColor (info (vessel v')))))
                    (vesselLines v')
                ++ map (fun q => CircleMarker q
                                   (GetColor (infoColor (info (vessel v')))))
                       (track (vessel v'))
                ++ [Marker (lat p, lon p)
                           (GetIcon (infoColor (info (vessel v'))))
                           (infoName (info (vessel v'))) (dt p)])
       ts gs).
Proof.
  intros H.
  pose proof (processTracks_all_positions segmentMax data ts H) as Hall.
  split; [split|].
  - intros Hthrow.
    assert (D : forall l : list VesselData,
               (exists v, In v l /\ track v = []) \/
               (forall v, In v l -> track v <> [])).
    { induction l as [|u l [(v & Hin & Hv) | IHl]].
      - right. intros v [].
      - left. exists v. split; [now right | exact Hv].
      - destruct (track u) as [|p tr] eqn:Eu.
        + left. exists u. split; [now left | exact Eu].
        + right. intros v [<-|Hin]; [congruence | now apply IHl]. }
    destruct (D data) as [Hex | Hne]; [exact Hex|].
    destruct (render_all_positions Color Icon GetColor GetIcon ts (Hall Hne))
      as (gs & E & _).
    congruence.
  - intros (v & Hin & Hv).
    destruct (processTracks_In segmentMax data ts v H Hin) as (v' & E & Hin').
    rewrite (processVessel_empty segmentMax v Hv) in E. injection E as <-.
    eapply render_throws; [exact Hin' | reflexivity].
  - intros Hne.
    exact (render_all_positions Color Icon GetColor GetIcon ts (Hall Hne)).
Qed.

Lemma render_fails_only_on_empty_track_witness :
  processTracks 180 [exampleVesselData] = Ok [exampleVesselDone] /\
  render string string (fun c => c) (fun c => c) [exampleVesselDone]
  = Ok [[ Polyline (map pointOf [examplePosition 1700000060 2;
                                 examplePosition 1700000000 1]) "red"%string;
          CircleMarker (examplePosition 1700000060 2) "red"%string;
          CircleMarker (examplePosition 1700000000 1) "red"%string;
          Marker (pointOf (examplePosition 1700000060 2)) "red"%string
                 "vessel"%string 1700000060 ]].
Proof.
  split; [reflexivity|].
  destruct (render_fails_only_on_empty_track string string (fun c => c)
              (fun c => c) 180 [exampleVesselData] [exampleVesselDone]
              eq_refl) as [_ Hdraw].
  destruct Hdraw as (gs & E & Hgs).
  - intros v [<-|[]]. discriminate.
  - rewrite E. f_equal.
    inversion Hgs as [|v' g ts' gs' (p & Ep & Eg) Hrest]; subst.
    inversion Hrest; subst. injection Ep as <-. reflexivity.
Defined.

(** Every point of every stored segment of a vessel is the
    [(lat, lon)] pair of one of the positions the vessel came with: the
    polylines join recorded positions only. *)
Theorem polylines_join_recorded_positions (segmentMax : Z) (v : VesselData)
        (v' : Vessel) (seg : Segment) (pt : Point) :
  processVessel segmentMax v = Ok v' ->
  In seg (vesselLines v') -> In pt seg ->
  exists p, In p (track v) /\ pointOf p = pt.
Proof.
  unfold processVessel.
  destruct (segmentTrack segmentMax (sortTrack (track v))) as [ls|e] eqn:E;
    cbn [bind]; [|discriminate].
  intros [= <-]. cbn [vesselLines]. intros Hseg Hpt.
  rewrite (segmentTrack_kept _ _ _ E) in Hseg.
  apply in_map_iff in Hseg. destruct Hseg as (run & <- & Hrun).
  apply in_map_iff in Hpt. destruct Hpt as (p & <- & Hp).
  exists p. split; [|reflexivity].
  apply (Permutation_in _ (Permutation_sym (sortTrack_perm (track v)))).
  rewrite <- (runs_concat segmentMax (sortTrack (track v))).
  apply in_concat. exists run. split; [|exact Hp].
  unfold keptRuns in Hrun. apply filter_In in Hrun. tauto.
Qed.

Lemma polylines_join_recorded_positions_witness :
  exists p, In p (track exampleVesselData) /\
            pointOf p = pointOf (examplePosition 1700000000 1).
Proof.
  apply (polylines_join_recorded_positions 180 exampleVesselData
           exampleVesselDone
           (map pointOf [examplePosition 1700000060 2;
                         examplePosition 1700000000 1])).
  - reflexivity.
  - left; reflexivity.
  - right; left; reflexivity.
Defined.

(** ** The vessel tracker over its whole life *)

(** Nothing but a settling request touches the error count or the
    displayed tracks. *)
Lemma trackLayerStep_frame (st : TrackLayer.t) (e : TrackLayerEvent) :
  (forall id o, e <> TLSettle id o) ->
  TrackLayer.refreshErrors (trackLayerStep st e)
  = TrackLayer.refreshErrors st /\
  TrackLayer.tracks (trackLayerStep st e) = TrackLayer.tracks st.
Proof.
  intros Hne. destruct e as [| | |id o| |b]; cbn [trackLayerStep].
  - unfold TrackLayer.componentDidMount.
    destruct (TrackLayer.mounted st); split; reflexivity.
  - unfold TrackLayer.startupFired, TrackLayer.refresh.
    cbn [TrackLayer.freshRequestRef TrackLayer.isVisible
         TrackLayer.withRequestRef TrackLayer.withWorld newSource].
    destruct (negb (TrackLayer.isVisible st)); split; reflexivity.
  - unfold TrackLayer.refresh.
    destruct (negb (TrackLayer.isVisible st)); split; reflexivity.
  - now destruct (Hne id o).
  - split; reflexivity.
  - split; reflexivity.
Qed.

Lemma trackLayer_settle_cases (st : TrackLayer.t) (id : nat) (o : Outcome) :
  TrackLayer.settle id o st = st \/
  (exists data ts,
      o = Response data /\
      processTracks TrackLayer.segmentMax data = Ok ts /\
      TrackLayer.refreshErrors (TrackLayer.settle id o st) = 0%nat /\
      TrackLayer.tracks (TrackLayer.settle id o st) = ts) \/
  (TrackLayer.refreshErrors (TrackLayer.settle id o st)
   = S (TrackLayer.refreshErrors st) /\
   TrackLayer.tracks (TrackLayer.settle id o st)
   = if (S (TrackLayer.refreshErrors st) <? 5)%nat
     then TrackLayer.tracks st else []).
Proof.
  unfold TrackLayer.settle.
  destruct (findRequest id (TrackLayer.world st)) as [r|]; [|now left].
  right.
  set (st1 := TrackLayer.withWorld st (settled r (TrackLayer.world st))).
  assert (R : TrackLayer.refreshErrors
                (TrackLayer.onFinally (TrackLayer.onCatch st1))
              = S (TrackLayer.refreshErrors st) /\
              TrackLayer.tracks
                (TrackLayer.onFinally (TrackLayer.onCatch st1))
              = if (S (TrackLayer.refreshErrors st) <? 5)%nat
                then TrackLayer.tracks st else []).
  { destruct (trackLayer_onFinally (TrackLayer.onCatch st1)) as [-> ->].
    apply (trackLayer_onCatch st1). }
  destruct (isCancelled (TrackLayer.world st) r); [now right|].
  destruct o as [data|]; [|now right].
  unfold TrackLayer.onThen.
  destruct (processTracks TrackLayer.segmentMax data) as [ts|] eqn:Hp;
    cbn [bind]; [|now right].
  left. exists data, ts. repeat split. exact Hp.
Qed.

Lemma trackLayer_settle_mounted (st : TrackLayer.t) (id : nat) (o : Outcome) :
  TrackLayer.mounted (TrackLayer.settle id o st) = TrackLayer.mounted st.
Proof.
  unfold TrackLayer.settle, TrackLayer.onThen, TrackLayer.onFinally,
    TrackLayer.onCatch.
  destruct (findRequest id (TrackLayer.world st)) as [r|]; [|reflexivity].
  destruct (isCancelled (TrackLayer.world st) r), o as [data|];
    try destruct (processTracks TrackLayer.segmentMax data);
    cbn [bind TrackLayer.withRefreshErrors TrackLayer.withWorld
         TrackLayer.refreshErrors];
    try destruct (TrackLayer.maxErrors <=? S (TrackLayer.refreshErrors st))%nat;
    reflexivity.
Qed.

Lemma trackLayerStep_mounted (st : TrackLayer.t) (e : TrackLayerEvent) :
  e <> TLUnmount -> TrackLayer.mounted st = true ->
  TrackLayer.mounted (trackLayerStep st e) = true.
Proof.
  intros Hne Hm. destruct e as [| | |id o| |b]; cbn [trackLayerStep].
  - unfold TrackLayer.componentDidMount. rewrite Hm. exact Hm.
  - unfold TrackLayer.startupFired, TrackLayer.refresh.
    cbn [TrackLayer.freshRequestRef TrackLayer.isVisible
         TrackLayer.withRequestRef TrackLayer.withWorld newSource].
    destruct (negb (TrackLayer.isVisible st)); exact Hm.
  - unfold TrackLayer.refresh.
    destruct (negb (TrackLayer.isVisible st)); exact Hm.
  - now rewrite trackLayer_settle_mounted.
  - congruence.
  - exact Hm.
Qed.

(** On a tracker that stays mounted and whose responses give every
    vessel a position, whatever else happens and in whatever order, every
    displayed vessel has a head position, and no tracks are displayed
    while the error count is at or above [maxErrors]. *)
Theorem stale_tracks_never_shown (visible : bool) (w : World)
        (es : list TrackLayerEvent) :
  Forall staysMounted es ->
  let st := trackLayerRun es
              (TrackLayer.componentDidMount
                 (TrackLayer.constructor visible w)) in
  TrackLayer.mounted st = true /\
  Forall (fun v' => pos v' <> None) (TrackLayer.tracks st) /\
  ((TrackLayer.maxErrors <= TrackLayer.refreshErrors st)%nat ->
   TrackLayer.tracks st = []).
Proof.
  intros Hes. cbv zeta. unfold TrackLayer.maxErrors.
  assert (G : forall st,
             TrackLayer.mounted st = true /\
             Forall (fun v' => pos v' <> None) (TrackLayer.tracks st) /\
             ((5 <= TrackLayer.refreshErrors st)%nat ->
              TrackLayer.tracks st = []) ->
             TrackLayer.mounted (trackLayerRun es st) = true /\
             Forall (fun v' => pos v' <> None)
                    (TrackLayer.tracks (trackLayerRun es st)) /\
             ((5 <= TrackLayer.refreshErrors (trackLayerRun es st))%nat ->
              TrackLayer.tracks (trackLayerRun es st) = [])).
  { induction Hes as [|e es He _ IH]; intros st Hst; [exact Hst|].
    cbn [trackLayerRun fold_left]. apply IH.
    destruct Hst as (Hm & Hpos & Hclear).
    split.
    { apply trackLayerStep_mounted; [|exact Hm].
      intros ->. exact He. }
    destruct e as [| | |id o| |b];
      try (match goal with
           | |- context [trackLayerStep st ?e] =>
               destruct (trackLayerStep_frame st e) as [-> ->];
               [intros ? ?; discriminate | split; assumption]
           end).
    cbn [trackLayerStep].
    destruct (trackLayer_settle_cases st id o)
      as [-> | [(data & ts & -> & Hp & E & ->) | [E ->]]].
    - split; assumption.
    - rewrite E. split; [|lia].
      exact (processTracks_all_positions _ data ts Hp He).
    - rewrite E.
      destruct (S (TrackLayer.refreshErrors st) <? 5)%nat eqn:L.
      + split; [exact Hpos|]. apply Nat.ltb_lt in L. lia.
      + split; [constructor | reflexivity]. }
  apply G. unfold TrackLayer.componentDidMount. cbn.
  split; [reflexivity|]. split; [constructor | lia].
Qed.

Lemma stale_tracks_never_shown_witness :
  TrackLayer.refreshErrors
    (trackLayerRun fivePollsFail
       (TrackLayer.componentDidMount
          (TrackLayer.constructor true emptyWorld)))
  = 5%nat /\
  TrackLayer.tracks
    (trackLayerRun (firstn 10 fivePollsFail)
       (TrackLayer.componentDidMount
          (TrackLayer.constructor true emptyWorld)))
  = [exampleVesselDone] /\
  TrackLayer.tracks
    (trackLayerRun fivePollsFail
       (TrackLayer.componentDidMount
          (TrackLayer.constructor true emptyWorld)))
  = [].
Proof.
  split; [reflexivity|]. split; [reflexivity|].
  destruct (stale_tracks_never_shown true emptyWorld fivePollsFail)
    as (_ & _ & Hclear).
  - unfold fivePollsFail.
    repeat (apply Forall_cons;
            [cbn; first [exact I | intros v [<-|[]]; discriminate]|]).
    constructor.
  - apply Hclear. vm_compute. lia.
Defined.

Lemma filter_keeps_below (n : nat) (l : list nat) :
  Forall (fun m => (m < n)%nat) l ->
  filter (fun m => negb (Nat.eqb m n)) l = l.
Proof.
  induction 1 as [|m l Hm _ IH]; [reflexivity|].
  cbn [filter]. replace (Nat.eqb m n) with false
    by (symmetry; apply Nat.eqb_neq; lia).
  cbn [negb]. now rewrite IH.
Qed.

(** Mounting and unmounting leave no timer behind: on a tracker that is
    not mounted, [componentDidMount] followed by [componentWillUnmount],
    with or without the soft-start timer firing in between, leaves the
    live timers exactly as they were, and the tracker unmounted. *)
Theorem unmount_clears_timers (st : TrackLayer.t) :
  TrackLayer.mounted st = false ->
  TrackLayer.refreshTimer st = None ->
  Forall (fun h => (h < nextId (TrackLayer.world st))%nat)
         (timers (TrackLayer.world st)) ->
  let early := TrackLayer.componentWillUnmount
                 (TrackLayer.componentDidMount st) in
  let late := TrackLayer.componentWillUnmount
                (TrackLayer.startupFired (TrackLayer.componentDidMount st)) in
  timers (TrackLayer.world early) = timers (TrackLayer.world st) /\
  timers (TrackLayer.world late) = timers (TrackLayer.world st) /\
  TrackLayer.mounted late = false /\ TrackLayer.refreshTimer late = None.
Proof.
  intros Hm Hr Ht early late.
  set (n := nextId (TrackLayer.world st)) in *.
  set (T := timers (TrackLayer.world st)) in *.
  assert (F : filter (fun m => negb (Nat.eqb m n)) T = T)
    by now apply filter_keeps_below.
  assert (N2 : Nat.eqb (S (S n)) n = false) by (apply Nat.eqb_neq; lia).
  assert (N3 : Nat.eqb (S (S (S n))) n = false) by (apply Nat.eqb_neq; lia).
  assert (F' : forall k, (n <= k)%nat ->
                         filter (fun m => negb (Nat.eqb m k)) T = T).
  { intros k Hk. apply filter_keeps_below.
    eapply Forall_impl; [|exact Ht]. cbv beta. intros; lia. }
  split; [|split].
  - unfold early, TrackLayer.componentWillUnmount,
      TrackLayer.componentDidMount.
    rewrite Hm. cbn -[Nat.eqb]. rewrite Hr. cbn -[Nat.eqb]. fold n T.
    now rewrite Nat.eqb_refl.
  - unfold late, TrackLayer.componentWillUnmount, TrackLayer.startupFired,
      TrackLayer.componentDidMount, TrackLayer.refresh.
    rewrite Hm. cbn -[Nat.eqb]. fold n T. rewrite Nat.eqb_refl. cbn [negb].
    destruct (TrackLayer.isVisible st); cbn -[Nat.eqb]; fold n T;
      rewrite ?F, ?N2, ?N3; cbn -[Nat.eqb];
      rewrite Nat.eqb_refl; cbn [negb]; apply F'; lia.
  - split; reflexivity.
Qed.

Lemma unmount_clears_timers_witness :
  timers (TrackLayer.world trackLayerFresh) = [0%nat] /\
  timers (TrackLayer.world
            (TrackLayer.startupFired
               (TrackLayer.componentDidMount trackLayerFresh)))
  = [5%nat; 0%nat] /\
  timers (TrackLayer.world
            (TrackLayer.componentWillUnmount
               (TrackLayer.startupFired
                  (TrackLayer.componentDidMount trackLayerFresh))))
  = [0%nat].
Proof.
  split; [reflexivity|]. split; [reflexivity|].
  destruct (unmount_clears_timers trackLayerFresh eq_refl eq_refl)
    as (_ & Hlate & _).
  - repeat constructor.
  - exact Hlate.
Defined.

(** A request in flight under the held token when the tracker unmounts
    is cancelled by the unmount: however it settles afterwards, its
    promise chain runs the catch handler and not the response handler,
    and the settlement is counted as one more error. *)
Theorem unmount_discards_inflight (st : TrackLayer.t) (id : nat)
        (r : Request) (o : Outcome) :
  findRequest id (TrackLayer.world st) = Some r ->
  reqToken r = TrackLayer.requestRef st ->
  let su := TrackLayer.componentWillUnmount st in
  let st' := TrackLayer.settle id o su in
  isCancelled (TrackLayer.world su) r = true /\
  In (TrackLayer.requestRef st) (cancelled (TrackLayer.world su)) /\
  TrackLayer.refreshErrors st' = S (TrackLayer.refreshErrors st) /\
  TrackLayer.mounted st' = false.
Proof.
  intros Hf Htok su st'.
  assert (Hf' : findRequest id (TrackLayer.world su) = Some r).
  { unfold su, TrackLayer.componentWillUnmount, findRequest in *.
    cbn [TrackLayer.world].
    destruct (TrackLayer.startupTimer st), (TrackLayer.refreshTimer st);
      exact Hf. }
  assert (Hc : isCancelled (TrackLayer.world su) r = true).
  { unfold su, TrackLayer.componentWillUnmount, isCancelled.
    cbn [TrackLayer.world].
    destruct (TrackLayer.startupTimer st), (TrackLayer.refreshTimer st);
      cbn [clearTimer cancel cancelled existsb];
      now rewrite Htok, Nat.eqb_refl. }
  split; [exact Hc|]. split; [|split].
  - unfold su, TrackLayer.componentWillUnmount. cbn [TrackLayer.world].
    destruct (TrackLayer.startupTimer st), (TrackLayer.refreshTimer st);
      now left.
  - unfold st'.
    rewrite (trackLayer_settle_rejected su id r o Hf' (or_introl Hc)).
    destruct (trackLayer_onFinally
                (TrackLayer.onCatch
                   (TrackLayer.withWorld su
                      (settled r (TrackLayer.world su)))))
      as [-> _].
    apply (trackLayer_onCatch
             (TrackLayer.withWorld su (settled r (TrackLayer.world su)))).
  - unfold st'. rewrite trackLayer_settle_mounted. reflexivity.
Qed.

Lemma unmount_discards_inflight_witness :
  isCancelled (TrackLayer.world (TrackLayer.componentWillUnmount
                                   trackLayerLive))
              trackLayerRequest = true /\
  TrackLayer.refreshErrors
    (TrackLayer.settle 3 (Response olderResponse)
       (TrackLayer.componentWillUnmount trackLayerLive))
  = 1%nat.
Proof.
  destruct (unmount_discards_inflight trackLayerLive 3 trackLayerRequest
              (Response olderResponse) eq_refl eq_refl)
    as (Hc & _ & He & _).
  split; [exact Hc | exact He].
Defined.

(** ** The history browser over its whole life *)

Ltac tokens_below :=
  unfold tokensBelow in *; cbn in *;
  match goal with
  | H : _ /\ _ |- _ => destruct H
  end;
  split; [lia|];
  repeat (apply Forall_cons; [lia|]);
  (eapply Forall_impl; [|eassumption]); cbv beta; intros; lia.

Lemma tokensBelow_refresh (p : Tracks.Props) (st : Tracks.t) :
  tokensBelow st -> tokensBelow (Tracks.refresh p st).
Proof.
  intros H. unfold Tracks.refresh.
  destruct (negb (Tracks.isVisible p)); [exact H|].
  destruct st as [sT rT ref tr [n cs infl tm lg]]. tokens_below.
Qed.

Lemma tokensBelow_timers (st : Tracks.t) (sT rT : option nat)
      (tm : list nat) (k : nat) :
  tokensBelow st ->
  tokensBelow
    {| Tracks.startupTimer := sT; Tracks.refreshTimer := rT;
       Tracks.requestRef := Tracks.requestRef st;
       Tracks.tracks := Tracks.tracks st;
       Tracks.world :=
         {| nextId := k + nextId (Tracks.world st);
            cancelled := cancelled (Tracks.world st);
            inflight := inflight (Tracks.world st);
            timers := tm; log := log (Tracks.world st) |} |}.
Proof. intros H. tokens_below. Qed.

Lemma tokensBelow_settle (id : nat) (o : Outcome) (st : Tracks.t) :
  tokensBelow st -> tokensBelow (Tracks.settle id o st).
Proof.
  intros H. unfold Tracks.settle.
  destruct (findRequest id (Tracks.world st)) as [r|]; [|exact H].
  assert (R : tokensBelow
                (Tracks.onFinally
                   (Tracks.onCatch
                      (Tracks.withWorld st (settled r (Tracks.world st)))))).
  { destruct st as [sT rT ref tr [n cs infl tm lg]]. tokens_below. }
  destruct (isCancelled (Tracks.world st) r); [exact R|].
  destruct o as [data|]; [|exact R].
  unfold Tracks.onThen.
  destruct (processTracks (Tracks.segmentMax (reqMinVal r)) data);
    cbn [bind]; [|exact R].
  destruct st as [sT rT ref tr [n cs infl tm lg]]. tokens_below.
Qed.

Lemma tokensBelow_step (st : Tracks.t) (e : TracksEvent) :
  tokensBelow st -> tokensBelow (tracksStep st e).
Proof.
  intros H. destruct e as [p|p|p|id o|]; cbn [tracksStep].
  - unfold Tracks.mountEffects. apply tokensBelow_refresh.
    destruct (Tracks.startupTimer st);
      apply (tokensBelow_timers st _ _ _ 1 H).
  - unfold Tracks.startupFired.
    set (st2 := Tracks.refresh p _).
    assert (H2 : tokensBelow st2).
    { apply tokensBelow_refresh.
      destruct (Tracks.startupTimer st); [|destruct st; exact H].
      apply (tokensBelow_timers st _ _ _ 0 H). }
    destruct (Tracks.refreshTimer st2);
      apply (tokensBelow_timers st2 _ _ _ 1 H2).
  - now apply tokensBelow_refresh.
  - now apply tokensBelow_settle.
  - unfold Tracks.cleanup.
    destruct (Tracks.startupTimer st); [|destruct st; exact H].
    apply (tokensBelow_timers st _ _ _ 0 H).
Qed.

Lemma tokensBelow_run (es : list TracksEvent) :
  forall st, tokensBelow st -> tokensBelow (tracksRun es st).
Proof.
  induction es as [|e es IH]; intros st H; [exact H|].
  cbn [tracksRun fold_left]. apply IH. now apply tokensBelow_step.
Qed.

Lemma refresh_born_outstanding (p : Tracks.Props) (st : Tracks.t) :
  Tracks.isVisible p = true -> tokensBelow st ->
  exists r,
    inflight (Tracks.world (Tracks.refresh p st))
    = inflight (Tracks.world st) ++ [r] /\
    reqToken r = Tracks.requestRef (Tracks.refresh p st) /\
    reqMinVal r = Tracks.minVal p /\
    In r (outstanding (Tracks.world (Tracks.refresh p st))) /\
    In (Tracks.requestRef st) (cancelled (Tracks.world (Tracks.refresh p st))).
Proof.
  intros Hp [Wr Wc].
  destruct st as [sT rT ref tr [n cs infl tm lg]].
  cbn [Tracks.requestRef Tracks.world nextId cancelled] in Wr, Wc.
  exists {| reqId := S n; reqToken := n; reqMinVal := Tracks.minVal p |}.
  unfold Tracks.refresh. rewrite Hp. cbn -[Nat.eqb outstanding].
  repeat split; [|now left].
  unfold outstanding, get. cbn [inflight nextId cancelled].
  rewrite filter_app. apply in_or_app.
  right. cbn [filter]. unfold isCancelled.
  cbn [cancelled reqToken existsb].
  rewrite (existsb_fresh _ _ Wc), orb_false_r.
  replace (n =? ref)%nat with false by (symmetry; apply Nat.eqb_neq; lia).
  now left.
Qed.

(** Whatever happened to the history browser before, a refresh that sees
    the page visible cancels the token held until then, and the request
    it issues carries the newly held token and is outstanding: a request
    is never born cancelled. *)
Theorem history_request_born_outstanding (es : list TracksEvent)
        (p : Tracks.Props) :
  Tracks.isVisible p = true ->
  let st := tracksRun es (Tracks.init emptyWorld) in
  let st' := Tracks.refresh p st in
  exists r,
    inflight (Tracks.world st') = inflight (Tracks.world st) ++ [r] /\
    reqToken r = Tracks.requestRef st' /\
    reqMinVal r = Tracks.minVal p /\
    In r (outstanding (Tracks.world st')) /\
    In (Tracks.requestRef st) (cancelled (Tracks.world st')).
Proof.
  intros Hp st st'. apply (refresh_born_outstanding p st Hp).
  apply tokensBelow_run. split; [cbn; lia | constructor].
Qed.

Lemma history_request_born_outstanding_witness :
  exists r,
    inflight (Tracks.world (Tracks.refresh visibleProps historyLive))
    = inflight (Tracks.world historyLive) ++ [r] /\
    reqToken r = 7%nat /\
    In r (outstanding (Tracks.world
                         (Tracks.refresh visibleProps historyLive))).
Proof.
  destruct (history_request_born_outstanding
              [HMount visibleProps; HStartup visibleProps]
              visibleProps eq_refl)
    as (r & E & Htok & _ & Hout & _).
  exists r. split; [exact E|]. split; [exact Htok | exact Hout].
Defined.

(** The clean-up of the history browser's timer effect clears the
    soft-start timeout and nothing else.  Run while that timeout is
    armed, it takes its handle, and only its handle, out of the live
    timers; run once the soft start has fired, it leaves the refresh
    interval the soft start armed live. *)
Theorem history_cleanup_leaves_interval (p : Tracks.Props) (st : Tracks.t) :
  (forall s, Tracks.startupTimer st = Some s ->
             (s < nextId (Tracks.world st))%nat) ->
  (let armed := Tracks.mountEffects p st in
   exists s,
     Tracks.startupTimer armed = Some s /\
     In s (timers (Tracks.world armed)) /\
     ~ In s (timers (Tracks.world (Tracks.cleanup armed))) /\
     forall h, h <> s -> In h (timers (Tracks.world armed)) ->
               In h (timers (Tracks.world (Tracks.cleanup armed)))) /\
  (let st' := Tracks.cleanup (Tracks.startupFired p st) in
   exists h,
     Tracks.refreshTimer st' = Some h /\ In h (timers (Tracks.world st'))).
Proof.
  intros Hs. split.
  - cbv zeta. destruct st as [sT rT ref tr [n cs infl tm lg]].
    unfold Tracks.cleanup, Tracks.mountEffects, Tracks.refresh.
    destruct (negb (Tracks.isVisible p)), sT as [s|];
      cbn -[Nat.eqb filter]; exists n;
      (split; [reflexivity|]); (split; [now left|]);
      (split;
       [ intros Hin; apply filter_In in Hin; destruct Hin as [_ Hneq];
         rewrite Nat.eqb_refl in Hneq; discriminate
       | intros h Hne Hin; apply filter_In; split; [exact Hin|];
         apply negb_true_iff, Nat.eqb_neq; exact Hne ]).
  - cbv zeta. destruct st as [sT rT ref tr [n cs infl tm lg]].
    cbn [Tracks.startupTimer Tracks.world nextId] in Hs.
    unfold Tracks.cleanup, Tracks.startupFired, Tracks.refresh.
    destruct (negb (Tracks.isVisible p)), sT as [s|], rT as [r|];
      cbn -[Nat.eqb]; eexists; (split; [reflexivity|]);
      try (specialize (Hs s eq_refl);
           match goal with
           | |- context [Nat.eqb ?a s] =>
               replace (Nat.eqb a s) with false
                 by (symmetry; apply Nat.eqb_neq; lia)
           end; cbn [negb]);
      now left.
Qed.

Lemma history_cleanup_leaves_interval_witness :
  timers (Tracks.world historyMounted) = [1%nat] /\
  timers (Tracks.world (Tracks.cleanup historyMounted)) = [] /\
  Tracks.refreshTimer (Tracks.cleanup historyLive) = Some 6%nat /\
  timers (Tracks.world (Tracks.cleanup historyLive)) = [6%nat] /\
  exists h,
    Tracks.refreshTimer (Tracks.cleanup historyLive) = Some h /\
    In h (timers (Tracks.world (Tracks.cleanup historyLive))).
Proof.
  split; [reflexivity|]. split; [reflexivity|].
  split; [reflexivity|]. split; [reflexivity|].
  apply (history_cleanup_leaves_interval visibleProps historyMounted).
  intros s [= <-]. cbn. lia.
Defined.

(** ** The wind chart *)

Lemma nth_error_last {A : Type} (l : list A) (x : A) :
  nth_error (l ++ [x]) (length (l ++ [x]) - 1) = Some x.
Proof.
  rewrite length_app. cbn [length].
  replace (length l + 1 - 1)%nat with (length l) by lia.
  rewrite nth_error_app2 by lia. now rewrite Nat.sub_diag.
Qed.

(** A wind response always replaces the chart data.  If it is empty, the
    handler throws while reading its last record: the current speed and
    direction keep their old values and the error is logged.  Otherwise
    they become the knots and direction of the last record. *)
Theorem wind_response_handling (st : WindChart.t)
        (response : list WindChart.WindRecord) :
  let st' := WindChart.onResponse response st in
  WindChart.data st' = response /\
  (response = [] ->
   WindChart.speedNow st' = WindChart.speedNow st /\
   WindChart.directionNow st' = WindChart.directionNow st /\
   log (WindChart.world st')
   = log (WindChart.world st) ++ ["wind error"%string]) /\
  (forall rs r,
      response = rs ++ [r] ->
      WindChart.speedNow st' = WindChart.knots (WindChart.value r) /\
      WindChart.directionNow st'
      = WindChart.direction (WindChart.value r) /\
      log (WindChart.world st') = log (WindChart.world st) ++ ["wind"%string]).
Proof.
  cbv zeta. unfold WindChart.onResponse, WindChart.onThen.
  split; [|split].
  - destruct (nth_error response (length response - 1)); reflexivity.
  - intros ->. repeat split.
  - intros rs r ->. rewrite nth_error_last. repeat split.
Qed.

Lemma wind_response_handling_witness :
  WindChart.speedNow windShown = inject_Z 12 /\
  WindChart.data (WindChart.onResponse [] windShown) = [] /\
  WindChart.speedNow (WindChart.onResponse [] windShown) = inject_Z 12 /\
  WindChart.directionNow (WindChart.onResponse [] windShown) = inject_Z 270.
Proof.
  split; [reflexivity|].
  destruct (wind_response_handling windShown []) as (Hd & He & _).
  destruct (He eq_refl) as (Hs & Hdir & _).
  split; [exact Hd|]. split; [rewrite Hs | rewrite Hdir]; reflexivity.
Defined.

(** The wind chart's effect and its clean-up are a round trip on the
    timers: the interval armed on mount is the one the clean-up clears,
    and every timer that was live before is live after. *)
Theorem wind_cleanup_clears_interval (st : WindChart.t) :
  Forall (fun h => (h < nextId (WindChart.world st))%nat)
         (timers (WindChart.world st)) ->
  let st1 := WindChart.mountEffect st in
  (exists h, WindChart.refreshTimer st1 = Some h /\
             timers (WindChart.world st1) = h :: timers (WindChart.world st))
  /\ timers (WindChart.world (WindChart.cleanup st1))
     = timers (WindChart.world st).
Proof.
  intros Ht. destruct st as [d s dir rT [n cs infl tm lg]].
  cbn [WindChart.world nextId timers] in Ht.
  cbv zeta. unfold WindChart.cleanup, WindChart.mountEffect, WindChart.refresh.
  cbn -[Nat.eqb]. split; [eauto|].
  rewrite Nat.eqb_refl. cbn [negb]. apply filter_keeps_below.
  eapply Forall_impl; [|exact Ht]. cbv beta. intros; lia.
Qed.

Lemma wind_cleanup_clears_interval_witness :
  timers (WindChart.world
            (WindChart.mountEffect
               (WindChart.init (snd (setTimer emptyWorld)))))
  = [3%nat; 0%nat] /\
  timers (WindChart.world
            (WindChart.cleanup
               (WindChart.mountEffect
                  (WindChart.init (snd (setTimer emptyWorld))))))
  = [0%nat].
Proof.
  split; [reflexivity|].
  apply (wind_cleanup_clears_interval
           (WindChart.init (snd (setTimer emptyWorld)))).
  repeat constructor.
Defined.

(** ** Chart ticks *)

Lemma ticksLoop_eq (fuel : nat) (d : Z) (dtTo : Q) (acc : list Z) :
  Ticks.ticksLoop fuel d dtTo acc =
  if Qlt_le_dec (inject_Z d) dtTo then
    match fuel with
    | O => None
    | S fuel' =>
        Ticks.ticksLoop fuel' (d + Ticks.tickSeconds) dtTo (acc ++ [d])
    end
  else Some acc.
Proof. destruct fuel; reflexivity. Qed.

Lemma tickAt_succ (d : Z) (i : nat) :
  tickAt d (S i) = tickAt (d + Ticks.tickSeconds) i.
Proof. unfold tickAt, Ticks.tickSeconds. lia. Qed.

Lemma tickAt_zero (d : Z) : tickAt d 0 = d.
Proof. unfold tickAt. cbn. lia. Qed.

(** The loop stops: if [bound] steps are enough to reach [dtTo], the loop
    makes some [n <= bound] steps, and any fuel from [n] on gives the
    ticks it pushed. *)
Lemma ticksLoop_spec (dtTo : Q) (bound : nat) :
  forall d acc,
    (dtTo <= inject_Z (tickAt d bound))%Q ->
    exists n,
      (n <= bound)%nat /\
      (forall fuel, (n <= fuel)%nat ->
                    Ticks.ticksLoop fuel d dtTo acc
                    = Some (acc ++ map (tickAt d) (seq 0 n))) /\
      (forall i, (i < n)%nat -> (inject_Z (tickAt d i) < dtTo)%Q) /\
      (dtTo <= inject_Z (tickAt d n))%Q.
Proof.
  induction bound as [|bound IH]; intros d acc Hb.
  - exists 0%nat. rewrite tickAt_zero in *. split; [lia|]. split; [|split].
    + intros fuel _. rewrite ticksLoop_eq.
      destruct (Qlt_le_dec (inject_Z d) dtTo) as [Hlt|_].
      * exfalso. exact (Qlt_not_le _ _ Hlt Hb).
      * cbn [seq map]. now rewrite app_nil_r.
    + intros i Hi. lia.
    + exact Hb.
  - destruct (Qlt_le_dec (inject_Z d) dtTo) as [Hlt|Hle] eqn:D.
    + rewrite tickAt_succ in Hb.
      destruct (IH (d + Ticks.tickSeconds) (acc ++ [d]) Hb)
        as (n & Hn & Hrun & Hin & Hout).
      exists (S n). split; [lia|]. split; [|split].
      * intros [|fuel] Hf; [lia|]. rewrite ticksLoop_eq, D.
        rewrite Hrun by lia. rewrite <- app_assoc. do 2 f_equal.
        cbn [seq map app]. rewrite tickAt_zero. f_equal.
        rewrite <- seq_shift, map_map. apply map_ext.
        intros i. symmetry. apply tickAt_succ.
      * intros [|i] Hi.
        -- now rewrite tickAt_zero.
        -- rewrite tickAt_succ. apply Hin. lia.
      * now rewrite tickAt_succ.
    + exists 0%nat. rewrite tickAt_zero. split; [lia|]. split; [|split].
      * intros fuel _. rewrite ticksLoop_eq, D.
        cbn [seq map]. now rewrite app_nil_r.
      * intros i Hi. lia.
      * exact Hle.
Qed.

(** [formatTicks] stops, and returns the whole multiples of
    [tickSeconds] from [floorFrom * tickSeconds] on that lie below [dtTo],
    in ascending order and without a gap; the first multiple it leaves out
    is not below [dtTo]. *)
Theorem formatTicks_spec (floorFrom : Z) (dtTo : Q) :
  exists n,
    (forall fuel, (n <= fuel)%nat ->
                  Ticks.formatTicks fuel floorFrom dtTo
                  = Some (map (fun i => (floorFrom + Z.of_nat i)
                                        * Ticks.tickSeconds)
                              (seq 0 n))) /\
    (forall i, (i < n)%nat ->
               (inject_Z ((floorFrom + Z.of_nat i) * Ticks.tickSeconds)
                < dtTo)%Q) /\
    (dtTo <= inject_Z ((floorFrom + Z.of_nat n) * Ticks.tickSeconds))%Q.
Proof.
  set (d := floorFrom * Ticks.tickSeconds).
  assert (T : forall i, tickAt d i
                        = (floorFrom + Z.of_nat i) * Ticks.tickSeconds)
    by (intros i; unfold tickAt, d, Ticks.tickSeconds; lia).
  destruct (ticksLoop_spec dtTo (Z.to_nat (Qceiling dtTo - d)) d [])
    as (n & _ & Hrun & Hin & Hout).
  - eapply Qle_trans; [apply Qle_ceiling|].
    rewrite <- Zle_Qle. unfold tickAt, Ticks.tickSeconds. lia.
  - exists n. split; [|split].
    + intros fuel Hf. unfold Ticks.formatTicks. fold d.
      rewrite (Hrun fuel Hf). cbn [app]. f_equal. apply map_ext. exact T.
    + intros i Hi. rewrite <- T. now apply Hin.
    + now rewrite <- T.
Qed.

Example formatTicks_example :
  Ticks.formatTicks 10 472222 (1700010000 # 1)
  = Some [1699999200; 1700002800; 1700006400].
Proof. vm_compute. reflexivity. Qed.

(** ** Tracks that arrive sorted *)

Lemma insertDesc_front (y : Position) (l : list Position) :
  HdRel newerFirst y l -> insertDesc y l = y :: l.
Proof.
  intros H. destruct l as [|z l]; [reflexivity|].
  cbn [insertDesc]. unfold compareDt.
  inversion H as [|? ? Hyz]; subst. unfold newerFirst in Hyz.
  replace (dt z - dt y <=? 0) with true
    by (symmetry; apply Z.leb_le; lia).
  reflexivity.
Qed.

(** The sort leaves a track that is already newest first exactly as it
    is, positions with equal timestamps included, so on such a track the
    handler segments what it received. *)
Theorem sorted_track_unchanged (segmentMax : Z) (track : list Position) :
  Sorted newerFirst track ->
  sortTrack track = track /\
  sortAndSegment segmentMax track = segmentTrack segmentMax track.
Proof.
  intros Hs.
  assert (E : sortTrack track = track).
  { induction Hs as [|y l Hl IH Hy]; [reflexivity|].
    change (sortTrack (y :: l)) with (insertDesc y (sortTrack l)).
    rewrite IH. now apply insertDesc_front. }
  split; [exact E|]. unfold sortAndSegment. now rewrite E.
Qed.

Lemma sorted_track_unchanged_witness :
  sortTrack exampleSorted = exampleSorted /\
  sortAndSegment 180 exampleSorted = Ok exampleSegments.
Proof.
  destruct (sorted_track_unchanged 180 exampleSorted) as [E1 E2].
  - repeat constructor; unfold newerFirst; cbn; lia.
  - split; [exact E1|]. rewrite E2. reflexivity.
Defined.
